(** * Smart Subway Navigator: the route planner of [SubwayNYC.cpp]

    A shallow embedding of [struct Edge], [class Graph] (the adjacency map,
    [addEdge], [addBidirectionalEdge], [dijkstra]) and [buildSampleGraph],
    followed by the properties of the planner. *)

From Stdlib Require Import ZArith Lia String List Ascii.
From Stdlib Require OrderedTypeEx.
From stdpp Require Import gmap strings list fin_maps sorting.

Local Open Scope string_scope.
Local Open Scope list_scope.
Local Open Scope Z_scope.

(** ** Machine integers

    [int] is a 32-bit two's complement integer.  Sums are computed in [Z]
    and brought back into range by [wrap], the result of an addition on
    two's complement hardware; the theorems that bound the costs show that
    no sum leaves the range.  [INT_MAX] is [numeric_limits<int>::max()]. *)

Definition INT_MAX : Z := 2147483647.
Definition INT_MIN : Z := -2147483648.

Definition wrap (z : Z) : Z := (z + 2 ^ 31) mod 2 ^ 32 - 2 ^ 31.

Definition int_add (a b : Z) : Z := wrap (a + b).

(** ** Data model *)

(** [struct Edge { string destination; int cost; string line; }] *)
Record Edge : Type := mkEdge {
  destination : string;
  cost : Z;
  line : string
}.

(** [unordered_map<string, vector<Edge>> adjList] *)
Abbreviation Graph := (gmap string (list Edge)).

(** The local [struct Node] of [dijkstra]: an entry of the priority queue. *)
Record Node : Type := mkNode {
  node_cost : Z;
  node_station : string;
  node_line : string
}.

#[export] Instance Edge_eq_dec : EqDecision Edge.
Proof. solve_decision. Defined.

#[export] Instance Node_eq_dec : EqDecision Node.
Proof. solve_decision. Defined.

(** The edges recorded for a station; a station without an entry has none. *)
Definition neighbors (g : Graph) (s : string) : list Edge :=
  default [] (g !! s).

(** [adjList[from].push_back({to, cost, line})] *)
Definition addEdge (g : Graph) (from to : string) (c : Z) (l : string) : Graph :=
  <[from := neighbors g from ++ [mkEdge to c l]]> g.

Definition addBidirectionalEdge (g : Graph) (s1 s2 : string) (c : Z)
    (l : string) : Graph :=
  addEdge (addEdge g s1 s2 c l) s2 s1 c l.

(** [adjList[k]] inside [dijkstra]: [operator[]] of [unordered_map] creates
    an entry holding an empty vector when [k] has none, so the access
    returns the edges together with the map it leaves behind. *)
Definition adj_index (g : Graph) (k : string) : list Edge * Graph :=
  match g !! k with
  | Some es => (es, g)
  | None => ([], <[k := []]> g)
  end.

(** [dist[k]] and [parent[k]]: both maps are local to one call and are only
    ever read through [operator[]], which yields the value-initialised
    element ([0], respectively a pair of empty strings) for a key that was
    never written.  The entry such a read creates holds that same element,
    so it is not recorded. *)
Definition dist_at (dist : gmap string Z) (k : string) : Z :=
  default 0 (dist !! k).

Definition parent_at (parent : gmap string (string * string)) (k : string)
    : string * string :=
  default ("", "") (parent !! k).

(** ** The priority queue

    [priority_queue<Node, vector<Node>, greater<Node>>] orders nodes by
    [cost] alone and leaves the order among nodes of equal cost to the heap
    implementation.  The planner is therefore written against the interface
    of a minimum queue: [pq_pop] is [top] followed by [pop], and [pq_elems]
    is the content of the queue as a multiset. *)

Class PQueue : Type := {
  pq : Type;
  pq_empty : pq;
  pq_push : Node -> pq -> pq;
  pq_pop : pq -> option (Node * pq);
  pq_elems : pq -> list Node
}.

(** What [top]/[pop]/[push] guarantee: the popped node is present, no
    remaining node is cheaper, and nothing else changes. *)
Class PQueueLaws (Q : PQueue) : Prop := {
  pq_elems_empty : pq_elems pq_empty = [];
  pq_elems_push : forall n q, pq_elems (pq_push n q) ≡ₚ n :: pq_elems q;
  pq_pop_None : forall q, pq_pop q = None -> pq_elems q = [];
  pq_pop_Some : forall q n q', pq_pop q = Some (n, q') ->
    pq_elems q ≡ₚ n :: pq_elems q' /\
    Forall (fun m => node_cost n <= node_cost m) (pq_elems q')
}.

(** ** The search of [Graph::dijkstra] *)

(** The extra cost of taking an edge of line [edge_line] from a node that
    was reached by [cur_line]:
    [if (!current.line.empty() && current.line != edge.line)]. *)
Definition transfer_extra (cur_line edge_line : string) (transferCost : Z) : Z :=
  if negb (String.eqb cur_line "") && negb (String.eqb cur_line edge_line)
  then transferCost else 0.

Section Search.
Context {Q : PQueue}.

Record SearchState : Type := mkState {
  dist : gmap string Z;
  parent : gmap string (string * string);
  queue : pq
}.

(** The body of the loop over the edges of the popped node. *)
Definition relax (current : Node) (transferCost : Z) (st : SearchState)
    (edge : Edge) : SearchState :=
  let extra := transfer_extra (node_line current) (line edge) transferCost in
  let newCost := int_add (int_add (node_cost current) (cost edge)) extra in
  if newCost <? dist_at (dist st) (destination edge) then
    {| dist := <[destination edge := newCost]> (dist st);
       parent := <[destination edge := (node_station current, line edge)]>
                   (parent st);
       queue := pq_push (mkNode newCost (destination edge) (line edge))
                  (queue st) |}
  else st.

(** What one iteration of [while (!pq.empty())] does with the node it
    popped: [inl] is the state the loop goes on with, [inr] the state it
    leaves the loop with. *)
Definition visit (dest : string) (transferCost : Z) (adj : Graph)
    (st : SearchState) (current : Node) (q' : pq)
    : (Graph * SearchState) + (Graph * SearchState) :=
  let st' := {| dist := dist st; parent := parent st; queue := q' |} in
  if dist_at (dist st) (node_station current) <? node_cost current then
    inl (adj, st')
  else if String.eqb (node_station current) dest then
    inr (adj, st')
  else
    let '(edges, adj') := adj_index adj (node_station current) in
    inl (adj', fold_left (relax current transferCost) edges st').

(** [while (!pq.empty())]: one unit of fuel per iteration. *)
Fixpoint search (fuel : nat) (dest : string) (transferCost : Z)
    (adj : Graph) (st : SearchState) : option (Graph * SearchState) :=
  match fuel with
  | O => None
  | S fuel' =>
    match pq_pop (queue st) with
    | None => Some (adj, st)
    | Some (current, q') =>
      match visit dest transferCost adj st current q' with
      | inl (adj', st') => search fuel' dest transferCost adj' st'
      | inr r => Some r
      end
    end
  end.

Definition init_state (adjList : Graph) (source : string) : SearchState :=
  {| dist := <[source := 0]> ((fun _ => INT_MAX) <$> adjList);
     parent := <[source := ("", "")]> ∅;
     queue := pq_push (mkNode 0 source "") pq_empty |}.
End Search.

(** [while (cur != source)]: follows the back-pointers, one unit of fuel
    per iteration. *)
Fixpoint reconstruct (fuel : nat) (par : gmap string (string * string))
    (source cur : string) (fullPath : list (string * string))
    : option (list (string * string)) :=
  if String.eqb cur source then Some fullPath
  else
    match fuel with
    | O => None
    | S fuel' =>
      reconstruct fuel' par source (fst (parent_at par cur))
        (fullPath ++ [(cur, snd (parent_at par cur))])
    end.

(** The part of [dijkstra] after the search loop. *)
Definition finish (fuel : nat) (source dest : string) (adj : Graph)
    (dist : gmap string Z) (par : gmap string (string * string))
    : option ((Z * list (string * string)) * Graph) :=
  if dist_at dist dest =? INT_MAX then Some ((-1, []), adj)
  else
    match reconstruct fuel par source dest [] with
    | None => None
    | Some fullPath =>
      Some ((dist_at dist dest, rev (fullPath ++ [(source, "")])), adj)
    end.

(** [dijkstra]: the result pair together with the adjacency map the call
    leaves behind; [None] when the fuel does not suffice. *)
Definition dijkstra {Q : PQueue} (fuel : nat) (adjList : Graph)
    (source dest : string) (transferCost : Z)
    : option ((Z * list (string * string)) * Graph) :=
  match search fuel dest transferCost adjList (init_state adjList source) with
  | None => None
  | Some (adj', st) => finish fuel source dest adj' (dist st) (parent st)
  end.

(** ** A list-backed queue *)

Fixpoint extract_min (q : list Node) : option (Node * list Node) :=
  match q with
  | [] => None
  | n :: q' =>
    match extract_min q' with
    | None => Some (n, [])
    | Some (m, r) =>
      if node_cost n <=? node_cost m then Some (n, q') else Some (m, n :: r)
    end
  end.

#[export] Instance ListPQ : PQueue := {|
  pq := list Node;
  pq_empty := [];
  pq_push := cons;
  pq_pop := extract_min;
  pq_elems := fun q => q
|}.

(** ** Every order of popping

    [picks l] lists the ways of taking one node out of [l]; [min_picks]
    keeps those a minimum queue may return.  [search_all] follows each of
    them and collects the outcomes of the loop, so that a run on a concrete
    network can be evaluated for all queue implementations at once. *)

Fixpoint picks (l : list Node) : list (Node * list Node) :=
  match l with
  | [] => []
  | x :: l' => (x, l') :: map (fun yr => (fst yr, x :: snd yr)) (picks l')
  end.

Definition is_min (nr : Node * list Node) : bool :=
  forallb (fun m => node_cost (fst nr) <=? node_cost m) (snd nr).

Definition min_picks (l : list Node) : list (Node * list Node) :=
  List.filter is_min (picks l).

Fixpoint search_all (fuel : nat) (dest : string) (transferCost : Z)
    (adj : Graph) (st : SearchState (Q := ListPQ))
    : list (option (Graph * SearchState (Q := ListPQ))) :=
  match fuel with
  | O => [None]
  | S fuel' =>
    match queue st with
    | [] => [Some (adj, st)]
    | _ :: _ =>
      flat_map (fun nr =>
        match visit dest transferCost adj st (fst nr) (snd nr) with
        | inl (adj', st') => search_all fuel' dest transferCost adj' st'
        | inr r => [Some r]
        end) (min_picks (queue st))
    end
  end.

Definition dijkstra_all (fuel : nat) (adjList : Graph) (source dest : string)
    (transferCost : Z)
    : list (option ((Z * list (string * string)) * Graph)) :=
  map (fun o =>
         match o with
         | None => None
         | Some (adj', st) => finish fuel source dest adj' (dist st) (parent st)
         end)
      (search_all fuel dest transferCost adjList (init_state adjList source)).

(** ** [buildSampleGraph] *)

Definition buildSampleGraph (graph : Graph) : Graph :=
  let graph := addBidirectionalEdge graph "Times Sq" "42nd St" 4 "1" in
  let graph := addBidirectionalEdge graph "42nd St" "34th St" 5 "1" in
  let graph := addBidirectionalEdge graph "34th St" "Penn Station" 6 "1" in
  let graph := addBidirectionalEdge graph "42nd St" "Grand Central" 3 "2" in
  let graph := addBidirectionalEdge graph "Grand Central" "14th St" 6 "2" in
  let graph := addBidirectionalEdge graph "14th St" "Wall St" 7 "2" in
  let graph := addBidirectionalEdge graph "34th St" "Union Sq" 4 "3" in
  let graph := addBidirectionalEdge graph "Union Sq" "Houston St" 7 "3" in
  let graph := addBidirectionalEdge graph "Houston St" "Canal St" 5 "3" in
  addBidirectionalEdge graph "Grand Central" "Union Sq" 4 "Interchange".

Definition sampleGraph : Graph := buildSampleGraph ∅.

(** The three connections of the sample network around 42nd St alone. *)
Definition scenarioGraph : Graph :=
  let graph := addBidirectionalEdge ∅ "Times Sq" "42nd St" 4 "1" in
  let graph := addBidirectionalEdge graph "42nd St" "Grand Central" 3 "2" in
  addBidirectionalEdge graph "42nd St" "34th St" 5 "1".

(** ** Routes and their cost *)

(** [is_walk g s es d]: the edges [es] are stored in [g] and lead, one
    after the other, from [s] to [d]. *)
Fixpoint is_walk (g : Graph) (s : string) (es : list Edge) (d : string) : Prop :=
  match es with
  | [] => s = d
  | e :: es' => e ∈ neighbors g s /\ is_walk g (destination e) es' d
  end.

(** The itinerary of a walk: the source with the none line, then each
    station with the line of the edge that arrives there. *)
Definition itinerary_of (s : string) (es : list Edge) : list (string * string) :=
  (s, "") :: map (fun e => (destination e, line e)) es.

(** The cost of a route in the words of the specification: the sum of its
    edge costs plus one transfer penalty for each pair of consecutive edges
    whose line labels differ; the first edge has no predecessor and pays
    none. *)
Fixpoint route_cost (penalty : Z) (prev : option string) (es : list Edge) : Z :=
  match es with
  | [] => 0
  | e :: es' =>
    cost e
    + match prev with
      | Some l => if String.eqb l (line e) then 0 else penalty
      | None => 0
      end
    + route_cost penalty (Some (line e)) es'
  end.

(** The cost the search accumulates along a walk that is entered on line
    [cur_line]. *)
Fixpoint ride_cost (penalty : Z) (cur_line : string) (es : list Edge) : Z :=
  match es with
  | [] => 0
  | e :: es' =>
    cost e + transfer_extra cur_line (line e) penalty
    + ride_cost penalty (line e) es'
  end.

(** The line a walk entered on [cur_line] ends on. *)
Fixpoint last_line (cur_line : string) (es : list Edge) : string :=
  match es with
  | [] => cur_line
  | e :: es' => last_line (line e) es'
  end.

(** ** Preconditions on a network *)

Definition all_edges (g : Graph) : list Edge :=
  flat_map snd (map_to_list g).

(** Every stored cost lies between [0] and [W]. *)
Definition costs_within (W : Z) (g : Graph) : bool :=
  forallb (fun e => (0 <=? cost e) && (cost e <=? W)) (all_edges g).

(** No stored edge is labelled with the empty string. *)
Definition lines_named (g : Graph) : bool :=
  forallb (fun e => negb (String.eqb (line e) "")) (all_edges g).

(** The stations the search can assign a distance to. *)
Definition stations (g : Graph) (source : string) : list string :=
  elements (dom g ∪ {[source]}).

Definition degree_sum (g : Graph) (l : list string) : nat :=
  sum_list_with (fun u => length (neighbors g u)) l.

(** Fuel that suffices for both loops of [dijkstra] on a network within
    its preconditions. *)
Definition enough_fuel (g : Graph) (source : string) : nat :=
  S (S (degree_sum g (stations g source) + length (stations g source))).

(** ** Invariants of the search *)

(** A state of the search over a queue [Q] and a state over the list-backed
    queue agree when their tables are equal and their queues hold the same
    nodes. *)
Definition sim {Q : PQueue} (st : SearchState (Q := Q))
    (sl : SearchState (Q := ListPQ)) : Prop :=
  dist st = dist sl /\ parent st = parent sl /\ pq_elems (queue st) ≡ₚ queue sl.

Definition node_key (n : Node) : string * Z := (node_station n, node_cost n).

(** The back-pointer of every station of the list, the source apart, points
    further down the list. *)
Inductive chain (par : gmap string (string * string)) (source : string)
    : list string -> Prop :=
| chain_nil : chain par source []
| chain_cons u l :
    u = source \/ fst (parent_at par u) ∈ l ->
    chain par source l -> chain par source (u :: l).

(** The distance of [v] is the distance of its back-pointer plus the cost of
    a stored edge between them plus the transfer the search charged. *)
Definition reached_by_edge (g : Graph) (p : Z) (ds : gmap string Z)
    (par : gmap string (string * string)) (v : string) : Prop :=
  exists e, e ∈ neighbors g (fst (parent_at par v))
    /\ destination e = v
    /\ line e = snd (parent_at par v)
    /\ dist_at ds v
       = dist_at ds (fst (parent_at par v)) + cost e
         + transfer_extra (snd (parent_at par (fst (parent_at par v))))
             (line e) p.

(** The invariant of [while (!pq.empty())].  [done] lists the stations whose
    edges were relaxed, latest first; [rest] the other stations. *)
Record inv {Q : PQueue} (g : Graph) (source : string) (p W : Z)
    (done rest : list string) (st : SearchState) : Prop := {
  inv_perm : done ++ rest ≡ₚ stations g source;
  inv_dom : dom (dist st) = dom g ∪ {[source]};
  inv_src : dist st !! source = Some 0;
  inv_src_par : parent_at (parent st) source = ("", "");
  inv_le_max : forall v c, dist st !! v = Some c -> c <= INT_MAX;
  inv_q_ge : forall n, n ∈ pq_elems (queue st) ->
    is_Some (dist st !! node_station n)
    /\ dist_at (dist st) (node_station n) <= node_cost n
    /\ 0 <= node_cost n <= Z.of_nat (length done) * (W + p);
  inv_q_exact : forall n, n ∈ pq_elems (queue st) ->
    dist_at (dist st) (node_station n) = node_cost n ->
    node_line n = snd (parent_at (parent st) (node_station n))
    /\ node_station n ∉ done;
  inv_q_nodup : NoDup (map node_key (pq_elems (queue st)));
  inv_done_le : forall u n, u ∈ done -> n ∈ pq_elems (queue st) ->
    dist_at (dist st) u <= node_cost n;
  inv_done_fin : forall u, u ∈ done -> dist_at (dist st) u < INT_MAX;
  inv_tree : forall v c, v <> source -> dist st !! v = Some c -> c < INT_MAX ->
    fst (parent_at (parent st) v) ∈ done
    /\ reached_by_edge g p (dist st) (parent st) v;
  inv_chain : chain (parent st) source done;
  inv_par_dom : forall v, is_Some (parent st !! v) -> is_Some (dist st !! v)
}.

(** What holds of the popped node [n] while its edges are relaxed. *)
Record expanding {Q : PQueue} (p W : Z) (done : list string)
    (st : SearchState) (n : Node) : Prop := {
  exp_done : node_station n ∈ done;
  exp_dist : dist_at (dist st) (node_station n) = node_cost n;
  exp_line : node_line n = snd (parent_at (parent st) (node_station n));
  exp_bound : 0 <= node_cost n
              /\ node_cost n + W + p <= Z.of_nat (length done) * (W + p);
  exp_le : forall u, u ∈ done -> dist_at (dist st) u <= node_cost n
}.

(** [trapped par source C cur]: [cur] lies in [C], no station of [C] is the
    source, and the back-pointer of every station of [C] stays in [C]. *)
Definition trapped (par : gmap string (string * string)) (source : string)
    (C : list string) (cur : string) : bool :=
  existsb (String.eqb cur) C
  && forallb (fun x => negb (String.eqb x source)
                       && existsb (String.eqb (fst (parent_at par x))) C) C.

(** The search ended with a finite distance for [dest] and back-pointers
    that are trapped in [C]. *)
Definition ends_trapped (source dest : string) (C : list string)
    (o : option (Graph * SearchState (Q := ListPQ))) : bool :=
  match o with
  | Some (_, sl) =>
    negb (dist_at (dist sl) dest =? INT_MAX) && trapped (parent sl) source C dest
  | None => false
  end.

(** ** Networks used as examples *)

Definition twoLineGraph : Graph :=
  let g := addBidirectionalEdge ∅ "S" "M" 1 "A" in
  let g := addBidirectionalEdge g "S" "M" 2 "B" in
  addBidirectionalEdge g "M" "D" 1 "B".

Definition detourGraph : Graph :=
  let g := addBidirectionalEdge ∅ "S" "U" 1 "A" in
  let g := addBidirectionalEdge g "U" "M" 1 "C" in
  let g := addBidirectionalEdge g "S" "M" 5 "B" in
  addBidirectionalEdge g "M" "D" 1 "B".

Definition loopGraph : Graph :=
  let g := addEdge ∅ "S" "U" 10 "a" in
  let g := addEdge g "U" "D" 2 "c" in
  let g := addEdge g "U" "W" 1 "b" in
  let g := addEdge g "W" "U" 18 "a" in
  addEdge g "D" "U" 2 "c".

Definition unnamedLineGraph : Graph :=
  let g := addEdge ∅ "A" "B" 1 "" in
  let g := addEdge g "B" "C" 1 "1" in
  addEdge g "C" "B" 1 "1".

(** ** Networks built from two-way connections *)

(** Every stored edge has its mirror image: the edge back, of the same cost
    and line. *)
Definition symmetric (g : Graph) : Prop :=
  forall u e, e ∈ neighbors g u ->
    mkEdge u (cost e) (line e) ∈ neighbors g (destination e).

(** Every station an edge leads to has an adjacency entry. *)
Definition closed (g : Graph) : Prop :=
  forall u e, e ∈ neighbors g u -> is_Some (g !! destination e).

(** The graphs a sequence of [addBidirectionalEdge] calls builds from the
    empty graph, as [buildSampleGraph] does. *)
Inductive two_way : Graph -> Prop :=
| two_way_empty : two_way ∅
| two_way_add g s1 s2 c l :
    two_way g -> two_way (addBidirectionalEdge g s1 s2 c l).

(** ** Bounds on the returned cost *)

(** The cost of a walk when every edge is charged [k] on top of its own
    cost. *)
Fixpoint padded_cost (k : Z) (es : list Edge) : Z :=
  match es with
  | [] => 0
  | e :: es' => cost e + k + padded_cost k es'
  end.

(** No change between two stored lines is charged more than [k]. *)
Definition transfers_within (k p : Z) (g : Graph) : bool :=
  forallb (fun e1 =>
             forallb (fun e2 => transfer_extra (line e1) (line e2) p <=? k)
                     (all_edges g))
          (all_edges g).

(** Every stored edge runs on line [L]. *)
Definition single_line (L : string) (g : Graph) : bool :=
  forallb (fun e => String.eqb (line e) L) (all_edges g).

(** A second invariant of [while (!pq.empty())], on top of [inv]: a station
    with a finite distance is settled or has a node of that cost in the
    queue; the edges of settled stations are relaxed (those of [cur] listed
    in [skip] apart); and no walk from the source to a settled station is
    cheaper, padded by [k], than its distance. *)
Record inv2 {Q : PQueue} (g : Graph) (source : string) (k : Z)
    (done : list string) (cur : string) (skip : list Edge)
    (st : SearchState) : Prop := {
  inv2_exact : forall v c, dist st !! v = Some c -> c < INT_MAX ->
    (v ∈ done)
    \/ (exists m, m ∈ pq_elems (queue st)
                  /\ node_station m = v /\ node_cost m = c);
  inv2_relaxed : forall u e, u ∈ done -> e ∈ neighbors g u ->
    ~ (u = cur /\ e ∈ skip) ->
    dist_at (dist st) (destination e) <= dist_at (dist st) u + cost e + k
    /\ dist_at (dist st) (destination e) < INT_MAX;
  inv2_least : forall u es, u ∈ done -> is_walk g source es u ->
    dist_at (dist st) u <= padded_cost k es
}.

(** A network of one line, used as an example. *)
Definition oneLineGraph : Graph :=
  let g := addBidirectionalEdge ∅ "A" "B" 3 "1" in
  let g := addBidirectionalEdge g "B" "C" 4 "1" in
  addBidirectionalEdge g "A" "C" 9 "1".

(** ** The presentation code of [main]

    [getColor], the numbered station list, the validation of the two
    indices read from the terminal, and the loop that prints the route
    instructions. *)

(** The escape character ['\033'] and ["\n"]. *)
Definition esc : ascii := "027"%char.
Definition endl : string := String "010"%char "".

(** [string getColor(const string &line)] *)
Definition getColor (line : string) : string :=
  if String.eqb line "1" then String esc "[31m"
  else if String.eqb line "2" then String esc "[32m"
  else if String.eqb line "3" then String esc "[34m"
  else if String.eqb line "Interchange" then String esc "[35m"
  else String esc "[0m".

(** [const string reset] *)
Definition reset : string := String esc "[0m".

(** [operator<=] on [std::string]: the lexicographic order of the bytes. *)
Definition string_le (a b : string) : Prop := String.leb a b = true.

#[export] Instance string_le_dec a b : Decision (string_le a b).
Proof. unfold string_le. apply _. Defined.

(** [stationList] of [main]: the keys of [adjList], sorted.  The order in
    which an [unordered_map] is iterated and the algorithm of [std::sort]
    are not fixed; the list is computed from one order with one sorting
    algorithm, and [stationList_any_order] shows that no other choice gives
    another list. *)
Definition stationList (g : Graph) : list string :=
  merge_sort string_le (elements (dom g)).

(** The conversion of an [int] to [size_t] in [srcIndex > stationList.size()]. *)
Definition to_size_t (z : Z) : Z := z mod 2 ^ 64.

(** What [main] does with the two indices: it rejects them ([return 1]),
    or reads [stationList[srcIndex - 1]] and [stationList[destIndex - 1]];
    [OutOfBounds] stands for a read outside the vector. *)
Inductive Selection : Type :=
| Invalid
| OutOfBounds
| Selected (src dest : string).

Definition selectStations (l : list string) (srcIndex destIndex : Z)
    : Selection :=
  if (srcIndex <? 1) || (Z.of_nat (length l) <? to_size_t srcIndex)
     || (destIndex <? 1) || (Z.of_nat (length l) <? to_size_t destIndex)
  then Invalid
  else
    match l !! Z.to_nat (srcIndex - 1), l !! Z.to_nat (destIndex - 1) with
    | Some src, Some dest => Selected src dest
    | _, _ => OutOfBounds
    end.

(** One line of the route instructions. *)
Inductive Instruction : Type :=
| StartAt (station : string)
| Take (usedLine : string)
| TransferAt (station usedLine : string)
| ArriveAt (station : string).

(** The text [main] prints for an instruction. *)
Definition render (i : Instruction) : string :=
  match i with
  | StartAt s => "Start at " ++ s ++ endl
  | Take l => "  -> Take " ++ getColor l ++ "Line " ++ l ++ reset ++ endl
  | TransferAt s l =>
    "  -> At " ++ s ++ ", transfer to " ++ getColor l ++ "Line " ++ l
    ++ reset ++ endl
  | ArriveAt s => "  -> Arrive at " ++ s ++ endl
  end%string.

(** [for (size_t i = 1; i < result.second.size(); i++)]: [currentLine] is
    the variable of that name, [previous] is [result.second[i-1].first]. *)
Fixpoint instructionLoop (currentLine previous : string)
    (entries : list (string * string)) : list Instruction :=
  match entries with
  | [] => []
  | (station, usedLine) :: entries' =>
    if String.eqb usedLine currentLine then
      ArriveAt station :: instructionLoop currentLine station entries'
    else
      (if String.eqb currentLine "" then Take usedLine
       else TransferAt previous usedLine)
      :: ArriveAt station :: instructionLoop usedLine station entries'
  end.

(** The instructions [main] prints for a result whose cost is not [-1]. *)
Definition routeInstructions (it : list (string * string))
    : list Instruction :=
  match it with
  | [] => []
  | (first, _) :: entries => StartAt first :: instructionLoop "" first entries
  end.

Definition printedRoute (it : list (string * string)) : string :=
  String.concat "" (map render (routeInstructions it)).

Definition is_transfer (i : Instruction) : bool :=
  match i with TransferAt _ _ => true | _ => false end.


(** ** A second list-backed queue

    Like [ListPQ], but among nodes of equal cost it returns the one pushed
    first. *)

Fixpoint extract_min_first (q : list Node) : option (Node * list Node) :=
  match q with
  | [] => None
  | n :: q' =>
    match extract_min_first q' with
    | None => Some (n, [])
    | Some (m, r) =>
      if node_cost n <? node_cost m then Some (n, q') else Some (m, n :: r)
    end
  end.

Definition ListPQ_first : PQueue := {|
  pq := list Node;
  pq_empty := [];
  pq_push := cons;
  pq_pop := extract_min_first;
  pq_elems := fun q => q
|}.

(** A network on which two nodes of equal cost wait in the queue. *)
Definition tieGraph : Graph :=
  let g := addEdge ∅ "S" "X" 5 "A" in
  let g := addEdge g "S" "Y" 5 "B" in
  let g := addEdge g "X" "M" 1 "A" in
  let g := addEdge g "Y" "M" 1 "B" in
  let g := addEdge g "M" "D" 1 "B" in
  addEdge g "D" "M" 1 "B".

(** * Properties *)

(** ** The list-backed queue is a minimum queue *)

Lemma extract_min_None q : extract_min q = None -> q = [].
Proof.
  destruct q as [|n q]; [done|]. simpl.
  destruct (extract_min q) as [[m r]|]; [|done].
  by destruct (node_cost n <=? node_cost m).
Qed.

Lemma extract_min_Some q : forall n q', extract_min q = Some (n, q') ->
  q ≡ₚ n :: q' /\ Forall (fun m => node_cost n <= node_cost m) q'.
Proof.
  induction q as [|a q IH]; intros n q' Hq; [done|].
  simpl in Hq. destruct (extract_min q) as [[m r]|] eqn:E.
  - destruct (IH m r eq_refl) as [Hp Hf].
    destruct (Z.leb_spec (node_cost a) (node_cost m)); simplify_eq.
    + split; [done|]. rewrite Hp. constructor; [done|].
      eapply Forall_impl; [exact Hf|]. simpl. intros; lia.
    + split.
      * rewrite Hp. apply perm_swap.
      * constructor; [lia|done].
  - simplify_eq. apply extract_min_None in E. subst. by split.
Qed.

#[export] Instance ListPQ_laws : PQueueLaws ListPQ.
Proof.
  split.
  - reflexivity.
  - intros n q. reflexivity.
  - apply extract_min_None.
  - intros q n q'. apply extract_min_Some.
Qed.

(** ** More fuel never changes a result *)

Section Fuel.
Context {Q : PQueue}.

Lemma search_fuel_mono fuel : forall fuel' d p adj (st : SearchState) r,
  search fuel d p adj st = Some r -> (fuel <= fuel')%nat ->
  search fuel' d p adj st = Some r.
Proof.
  induction fuel as [|fuel IH]; intros fuel' d p adj st r Hs Hle; [done|].
  destruct fuel' as [|fuel']; [lia|].
  simpl in *. destruct (pq_pop (queue st)) as [[n q']|]; [|done].
  destruct (visit d p adj st n q') as [[adj' st']|]; [|done].
  apply IH; [done|lia].
Qed.

Lemma reconstruct_fuel_mono fuel : forall fuel' par s cur acc r,
  reconstruct fuel par s cur acc = Some r -> (fuel <= fuel')%nat ->
  reconstruct fuel' par s cur acc = Some r.
Proof.
  induction fuel as [|fuel IH]; intros fuel' par s cur acc r Hr Hle.
  - simpl in Hr. destruct fuel'; simpl; by destruct (String.eqb cur s).
  - destruct fuel' as [|fuel']; [lia|]. simpl in *.
    destruct (String.eqb cur s); [done|]. apply IH; [done|lia].
Qed.

Lemma finish_fuel_mono fuel fuel' s d adj ds par r :
  finish fuel s d adj ds par = Some r -> (fuel <= fuel')%nat ->
  finish fuel' s d adj ds par = Some r.
Proof.
  unfold finish. intros Hf Hle. destruct (dist_at ds d =? INT_MAX); [done|].
  destruct (reconstruct fuel par s d []) as [fp|] eqn:E; [|done].
  by rewrite (reconstruct_fuel_mono _ _ _ _ _ _ _ E Hle).
Qed.

Lemma dijkstra_fuel_mono fuel fuel' g s d p r :
  dijkstra fuel g s d p = Some r -> (fuel <= fuel')%nat ->
  dijkstra fuel' g s d p = Some r.
Proof.
  unfold dijkstra. intros Hd Hle.
  destruct (search fuel d p g (init_state g s)) as [[adj' st]|] eqn:E; [|done].
  rewrite (search_fuel_mono _ _ _ _ _ _ _ E Hle).
  by apply finish_fuel_mono with fuel.
Qed.

(** A result obtained with some fuel is the only result any fuel gives. *)
Lemma dijkstra_fuel_agree fuel fuel' g s d p r r' :
  dijkstra fuel g s d p = Some r -> dijkstra fuel' g s d p = Some r' -> r = r'.
Proof.
  intros H1 H2. destruct (Nat.le_ge_cases fuel fuel') as [Hle|Hle].
  - rewrite (dijkstra_fuel_mono _ _ _ _ _ _ _ H1 Hle) in H2. congruence.
  - rewrite (dijkstra_fuel_mono _ _ _ _ _ _ _ H2 Hle) in H1. congruence.
Qed.
End Fuel.

(** ** Every queue follows one of the enumerated orders *)

Section AllOrders.
Context {Q : PQueue} {QL : PQueueLaws Q}.

Lemma relax_sim n p st sl e : sim st sl -> sim (relax n p st e) (relax n p sl e).
Proof.
  intros (Hd & Hp & Hq). unfold relax. cbv zeta. rewrite <- Hd.
  destruct (_ <? _); [|done].
  split; [|split]; simpl; [by rewrite Hd|by rewrite Hp|].
  rewrite pq_elems_push. by rewrite Hq.
Qed.

Lemma fold_relax_sim n p es : forall st sl, sim st sl ->
  sim (fold_left (relax n p) es st) (fold_left (relax n p) es sl).
Proof.
  induction es as [|e es IH]; intros st sl Hs; [done|].
  simpl. apply IH. by apply relax_sim.
Qed.

Lemma picks_middle l1 n l2 : In (n, l1 ++ l2) (picks (l1 ++ n :: l2)).
Proof.
  induction l1 as [|a l1 IH]; simpl; [by left|].
  right. apply in_map_iff. by exists (n, l1 ++ l2).
Qed.

Lemma min_picks_complete l n r0 :
  l ≡ₚ n :: r0 -> Forall (fun m => node_cost n <= node_cost m) r0 ->
  exists r, In (n, r) (min_picks l) /\ r0 ≡ₚ r.
Proof.
  intros Hp Hmin.
  assert (Hin : n ∈ l) by (rewrite Hp; left).
  apply list_elem_of_split in Hin as (l1 & l2 & ->).
  exists (l1 ++ l2). split.
  - apply filter_In. split; [apply picks_middle|].
    unfold is_min. simpl. apply forallb_forall. intros m Hm.
    apply Z.leb_le. rewrite Forall_forall in Hmin. apply Hmin.
    apply list_elem_of_In in Hm.
    rewrite <- Permutation_middle in Hp. apply Permutation_cons_inv in Hp.
    by rewrite <- Hp.
  - rewrite <- Permutation_middle in Hp. by apply Permutation_cons_inv in Hp.
Qed.

Lemma visit_sim d p adj st sl n q' r :
  sim st sl -> pq_elems q' ≡ₚ r ->
  match visit d p adj st n q', visit d p adj sl n r with
  | inl (a1, s1), inl (a2, s2) => a1 = a2 /\ sim s1 s2
  | inr (a1, s1), inr (a2, s2) => a1 = a2 /\ sim s1 s2
  | _, _ => False
  end.
Proof.
  intros (Hd & Hp & Hq) Hr. unfold visit. rewrite <- Hd.
  destruct (_ <? _); [done|].
  destruct (String.eqb _ _); [done|].
  destruct (adj_index adj (node_station n)) as [es adj'].
  split; [done|]. by apply fold_relax_sim.
Qed.

Lemma search_all_sound fuel d p : forall adj st sl, sim st sl ->
  match search fuel d p adj st with
  | None => In None (search_all fuel d p adj sl)
  | Some (adj', st') =>
    exists sl', In (Some (adj', sl')) (search_all fuel d p adj sl) /\ sim st' sl'
  end.
Proof.
  induction fuel as [|fuel IH]; intros adj st sl Hs; simpl; [by left|].
  destruct (pq_pop (queue st)) as [[n q']|] eqn:E.
  - destruct (pq_pop_Some _ _ _ E) as [Hperm Hmin].
    assert (Hq := proj2 (proj2 Hs)). rewrite Hq in Hperm.
    destruct (min_picks_complete _ _ _ Hperm Hmin) as (r & Hin & Hr).
    assert (Hv := visit_sim d p adj st sl n q' r Hs Hr).
    destruct (queue sl) as [|x l] eqn:Eq.
    { by apply Permutation_nil_cons in Hperm. }
    destruct (visit d p adj st n q') as [[a1 s1]|[a1 s1]];
      destruct (visit d p adj sl n r) as [[a2 s2]|[a2 s2]] eqn:Ev; try done.
    + destruct Hv as [-> Hv]. specialize (IH a2 s1 s2 Hv).
      destruct (search fuel d p a2 s1) as [[adj' st']|].
      * destruct IH as (sl' & Hin' & Hs'). exists sl'. split; [|done].
        apply in_flat_map. exists (n, r). split; [done|].
        simpl. by rewrite Ev.
      * apply in_flat_map. exists (n, r). split; [done|].
        simpl. by rewrite Ev.
    + destruct Hv as [-> Hv]. exists s2. split; [|done].
      apply in_flat_map. exists (n, r). split; [done|].
      simpl. rewrite Ev. by left.
  - apply pq_pop_None in E. destruct Hs as (Hd & Hp & Hq).
    assert (Hq' := Hq). rewrite E in Hq'. apply Permutation_nil in Hq'.
    rewrite Hq'. exists sl. split; [by left|]. by repeat split.
Qed.
End AllOrders.

Section Orders.
Context {Q : PQueue} {QL : PQueueLaws Q}.

Lemma init_state_sim g s : sim (init_state g s) (init_state (Q := ListPQ) g s).
Proof.
  split; [done|]. split; [done|]. simpl.
  rewrite pq_elems_push, pq_elems_empty. done.
Qed.

Lemma dijkstra_all_sound fuel g s d p :
  In (dijkstra fuel g s d p) (dijkstra_all fuel g s d p).
Proof.
  unfold dijkstra, dijkstra_all.
  assert (H := search_all_sound fuel d p g _ _ (init_state_sim g s)).
  destruct (search fuel d p g (init_state g s)) as [[adj' st']|].
  - destruct H as (sl' & Hin & Hd & Hp & _).
    apply in_map_iff. exists (Some (adj', sl')). split; [|done].
    by rewrite Hd, Hp.
  - apply in_map_iff. by exists None.
Qed.

(** When every order gives [r] with fuel [N], every queue gives [r] with
    any fuel from [N] on. *)
Lemma dijkstra_by_orders N g s d p r :
  forallb (fun o => bool_decide (o = Some r)) (dijkstra_all N g s d p) = true ->
  forall fuel, (N <= fuel)%nat -> dijkstra fuel g s d p = Some r.
Proof.
  intros Hall fuel Hle. apply dijkstra_fuel_mono with N; [|done].
  rewrite forallb_forall in Hall.
  eapply bool_decide_eq_true_1, Hall, dijkstra_all_sound.
Qed.

Lemma trapped_reconstruct par s C : forall fuel cur acc,
  trapped par s C cur = true -> reconstruct fuel par s cur acc = None.
Proof.
  induction fuel as [|fuel IH]; intros cur acc Ht;
    assert (Ht' := Ht); unfold trapped in Ht';
    apply andb_true_iff in Ht' as [Hin Hcl];
    apply existsb_exists in Hin as (x & Hx & Hcx);
    apply String.eqb_eq in Hcx; subst x;
    rewrite forallb_forall in Hcl;
    destruct (proj1 (andb_true_iff _ _) (Hcl _ Hx)) as [Hne Hpar];
    simpl; destruct (String.eqb cur s); try done.
  apply IH. unfold trapped. apply andb_true_iff. split; [done|].
  by apply forallb_forall.
Qed.

Lemma trapped_intro par s C cur :
  In cur C ->
  (forall x, In x C -> x <> s /\ In (fst (parent_at par x)) C) ->
  trapped par s C cur = true.
Proof.
  intros Hcur Hcl. unfold trapped. apply andb_true_iff. split.
  - apply existsb_exists. exists cur. split; [done|apply String.eqb_refl].
  - apply forallb_forall. intros x Hx. destruct (Hcl x Hx) as [Hne Hin].
    apply andb_true_iff. split.
    + by apply negb_true_iff, String.eqb_neq.
    + apply existsb_exists. eexists. split; [exact Hin|apply String.eqb_refl].
Qed.

(** When every order ends trapped with fuel [N], no queue and no fuel make
    [dijkstra] return. *)
Lemma dijkstra_diverges_by_orders N C g s d p :
  forallb (ends_trapped s d C) (search_all N d p g (init_state g s)) = true ->
  forall fuel, dijkstra fuel g s d p = None.
Proof.
  intros Hall fuel. rewrite forallb_forall in Hall.
  destruct (dijkstra fuel g s d p) as [r|] eqn:E; [exfalso|done].
  unfold dijkstra in E.
  destruct (search fuel d p g (init_state g s)) as [[adj' st]|] eqn:Es; [|done].
  assert (HN := search_all_sound N d p g _ _ (init_state_sim g s)).
  destruct (search N d p g (init_state g s)) as [[adjN stN]|] eqn:EN.
  - destruct HN as (sl & Hin & Hd & Hp & _).
    assert ((adj', st) = (adjN, stN)) as Heq.
    { destruct (Nat.le_ge_cases fuel N) as [Hle|Hle].
      - rewrite (search_fuel_mono _ _ _ _ _ _ _ Es Hle) in EN. congruence.
      - rewrite (search_fuel_mono _ _ _ _ _ _ _ EN Hle) in Es. congruence. }
    simplify_eq. specialize (Hall _ Hin). simpl in Hall.
    apply andb_true_iff in Hall as [Hfin Htr].
    unfold finish in E. rewrite Hd, Hp in E.
    destruct (dist_at (dist sl) d =? INT_MAX); [done|].
    by rewrite (trapped_reconstruct _ _ _ _ _ _ Htr) in E.
  - by specialize (Hall _ HN).
Qed.

(** The first [pop] returns the node pushed for the source and leaves the
    queue empty. *)
Lemma pop_first n :
  exists q', pq_pop (pq_push n pq_empty) = Some (n, q') /\ pq_elems q' = [].
Proof.
  assert (He : pq_elems (pq_push n pq_empty) ≡ₚ [n])
    by (by rewrite pq_elems_push, pq_elems_empty).
  destruct (pq_pop (pq_push n pq_empty)) as [[m q']|] eqn:E.
  - destruct (pq_pop_Some _ _ _ E) as [Hp _]. rewrite He in Hp.
    assert (Hl := Permutation_length Hp). simpl in Hl.
    destruct (pq_elems q') as [|x l] eqn:Eq; [|simpl in Hl; lia].
    apply Permutation_singleton_r in Hp. simplify_eq. by exists q'.
  - apply pq_pop_None in E. rewrite E in He.
    by apply Permutation_nil_cons in He.
Qed.

Lemma pop_empty q : pq_elems q = [] -> pq_pop q = None.
Proof.
  intros He. destruct (pq_pop q) as [[m q']|] eqn:E; [|done].
  destruct (pq_pop_Some _ _ _ E) as [Hp _]. rewrite He in Hp.
  by apply Permutation_nil_cons in Hp.
Qed.

Lemma dijkstra_same_station fuel g s p :
  dijkstra (S fuel) g s s p = Some ((0, [(s, "")]), g).
Proof.
  unfold dijkstra. simpl.
  destruct (pop_first (mkNode 0 s "")) as (q' & -> & _).
  unfold visit. simpl. unfold dist_at at 1. rewrite lookup_insert_eq. simpl.
  rewrite String.eqb_refl. unfold finish. simpl.
  unfold dist_at. rewrite lookup_insert_eq. simpl.
  by rewrite String.eqb_refl.
Qed.
End Orders.

Lemma neighbors_addEdge g from to c l :
  neighbors (addEdge g from to c l) from = neighbors g from ++ [mkEdge to c l].
Proof. unfold addEdge, neighbors at 1. by rewrite lookup_insert_eq. Qed.

Lemma neighbors_addEdge_ne g from to c l u :
  u <> from -> neighbors (addEdge g from to c l) u = neighbors g u.
Proof. intros Hne. unfold addEdge, neighbors at 1. by rewrite lookup_insert_ne. Qed.

Lemma transfer_extra_spec l1 l2 p :
  transfer_extra l1 l2 p = if decide (l1 <> "" /\ l1 <> l2) then p else 0.
Proof.
  unfold transfer_extra.
  destruct (String.eqb_spec l1 ""), (String.eqb_spec l1 l2); simpl;
    case_decide; tauto.
Qed.

Lemma transfer_extra_none l p : transfer_extra "" l p = 0.
Proof. done. Qed.

(** ** A query adds no edge and removes none *)

Lemma adj_index_keeps adj k u :
  neighbors (snd (adj_index adj k)) u = neighbors adj u.
Proof.
  unfold adj_index, neighbors. destruct (adj !! k) as [es|] eqn:E; simpl.
  - done.
  - destruct (decide (u = k)) as [->|Hne].
    + by rewrite lookup_insert_eq, E.
    + by rewrite lookup_insert_ne.
Qed.

Lemma search_keeps_edges {Q : PQueue} fuel :
  forall d p adj (st : SearchState) adj' st',
    search fuel d p adj st = Some (adj', st') ->
    forall u, neighbors adj' u = neighbors adj u.
Proof.
  induction fuel as [|fuel IH]; intros d p adj st adj' st' Hs u; [done|].
  simpl in Hs. destruct (pq_pop (queue st)) as [[n q']|]; [|by simplify_eq].
  unfold visit in Hs.
  destruct (dist_at (dist st) (node_station n) <? node_cost n).
  { by apply (IH _ _ _ _ _ _ Hs). }
  destruct (String.eqb (node_station n) d); [by simplify_eq|].
  assert (Ha := adj_index_keeps adj (node_station n) u).
  destruct (adj_index adj (node_station n)) as [es adj1]. simpl in Ha.
  by rewrite (IH _ _ _ _ _ _ Hs u).
Qed.

(** Whatever the query, the edges of every station after the call are the
    edges before it: the adjacency map can only gain empty entries. *)
Lemma dijkstra_keeps_edges {Q : PQueue} fuel g s d p r g' :
  dijkstra fuel g s d p = Some (r, g') ->
  forall u, neighbors g' u = neighbors g u.
Proof.
  unfold dijkstra. intros Hd u.
  destruct (search fuel d p g (init_state g s)) as [[adj' st]|] eqn:E; [|done].
  assert (Hk := search_keeps_edges _ _ _ _ _ _ _ E u).
  unfold finish in Hd. destruct (dist_at (dist st) d =? INT_MAX).
  - by simplify_eq.
  - destruct (reconstruct fuel (parent st) s d []); by simplify_eq.
Qed.

(** ** Same source and destination *)

(** C5: for every graph, station [s] and penalty, [dijkstra] from [s] to
    [s] returns cost [0] and the itinerary [[(s, none)]], already with one
    unit of fuel, and leaves the graph as it was. *)
Theorem C5_same_station {Q : PQueue} {QL : PQueueLaws Q} :
  forall (fuel : nat) (g : Graph) (s : string) (p : Z),
    dijkstra (S fuel) g s s p = Some ((0, [(s, "")]), g).
Proof. intros. apply dijkstra_same_station. Qed.

Lemma C5_same_station_witness :
  dijkstra (Q := ListPQ) 1 sampleGraph "Union Sq" "Union Sq" 2
  = Some ((0, [("Union Sq", "")]), sampleGraph).
Proof. exact (C5_same_station 0 sampleGraph "Union Sq" 2). Defined.

(** ** The sample network *)

(** C9: on the network of [buildSampleGraph], and on the network of its
    three connections Times Sq - 42nd St (line 1, cost 4), 42nd St - Grand
    Central (line 2, cost 3) and 42nd St - 34th St (line 1, cost 5) alone,
    the route from Times Sq to Grand Central with transfer penalty 2 costs 9
    and goes through 42nd St on line 1 and on to Grand Central on line 2,
    whatever order the queue pops nodes of equal cost in. *)
Theorem C9_sample_route {Q : PQueue} {QL : PQueueLaws Q} :
  forall fuel, (5 <= fuel)%nat ->
    dijkstra fuel sampleGraph "Times Sq" "Grand Central" 2
    = Some ((9, [("Times Sq", ""); ("42nd St", "1"); ("Grand Central", "2")]),
            sampleGraph)
    /\ dijkstra fuel scenarioGraph "Times Sq" "Grand Central" 2
       = Some ((9, [("Times Sq", ""); ("42nd St", "1");
                    ("Grand Central", "2")]), scenarioGraph).
Proof.
  intros fuel Hf.
  split; revert fuel Hf; apply dijkstra_by_orders; vm_compute; reflexivity.
Qed.

Lemma C9_sample_route_witness :
  dijkstra (Q := ListPQ) 5 sampleGraph "Times Sq" "Grand Central" 2
  = Some ((9, [("Times Sq", ""); ("42nd St", "1"); ("Grand Central", "2")]),
          sampleGraph)
  /\ dijkstra (Q := ListPQ) 5 scenarioGraph "Times Sq" "Grand Central" 2
     = Some ((9, [("Times Sq", ""); ("42nd St", "1"); ("Grand Central", "2")]),
             scenarioGraph).
Proof. apply (C9_sample_route 5). lia. Defined.

(** ** Routes the per-station table misses *)

(** C1: on [twoLineGraph] with transfer penalty 5 the search returns cost 7
    for S to D (it settles M on line A and then pays the transfer to line
    B), while riding line B all the way is a route of cost 3.  No two nodes
    of equal cost are ever in the queue together, so every queue behaves
    the same. *)
Theorem C1_returns_more_than_minimum {Q : PQueue} {QL : PQueueLaws Q} :
  forall fuel, (4 <= fuel)%nat ->
    dijkstra fuel twoLineGraph "S" "D" 5
    = Some ((7, [("S", ""); ("M", "A"); ("D", "B")]), twoLineGraph)
    /\ is_walk twoLineGraph "S" [mkEdge "M" 2 "B"; mkEdge "D" 1 "B"] "D"
    /\ route_cost 5 None [mkEdge "M" 2 "B"; mkEdge "D" 1 "B"] = 3.
Proof.
  intros fuel Hf. split; [|split].
  - revert fuel Hf. apply dijkstra_by_orders. vm_compute. reflexivity.
  - simpl. repeat split; apply list_elem_of_In; vm_compute; tauto.
  - reflexivity.
Qed.

Lemma C1_returns_more_than_minimum_witness :
  dijkstra (Q := ListPQ) 4 twoLineGraph "S" "D" 5
  = Some ((7, [("S", ""); ("M", "A"); ("D", "B")]), twoLineGraph)
  /\ is_walk twoLineGraph "S" [mkEdge "M" 2 "B"; mkEdge "D" 1 "B"] "D"
  /\ route_cost 5 None [mkEdge "M" 2 "B"; mkEdge "D" 1 "B"] = 3.
Proof. apply (C1_returns_more_than_minimum 4). lia. Defined.

(** C7: on [detourGraph] the returned cost for S to D is 7 with transfer
    penalty 2 and 6 with transfer penalty 3: raising the penalty lowered
    the returned cost. *)
Theorem C7_cost_drops_as_penalty_grows {Q : PQueue} {QL : PQueueLaws Q} :
  forall fuel, (6 <= fuel)%nat ->
    dijkstra fuel detourGraph "S" "D" 2
    = Some ((7, [("S", ""); ("U", "A"); ("M", "C"); ("D", "B")]), detourGraph)
    /\ dijkstra fuel detourGraph "S" "D" 3
       = Some ((6, [("S", ""); ("M", "B"); ("D", "B")]), detourGraph).
Proof.
  intros fuel Hf.
  split; revert fuel Hf; apply dijkstra_by_orders; vm_compute; reflexivity.
Qed.

Lemma C7_cost_drops_as_penalty_grows_witness :
  dijkstra (Q := ListPQ) 6 detourGraph "S" "D" 2
  = Some ((7, [("S", ""); ("U", "A"); ("M", "C"); ("D", "B")]), detourGraph)
  /\ dijkstra (Q := ListPQ) 6 detourGraph "S" "D" 3
     = Some ((6, [("S", ""); ("M", "B"); ("D", "B")]), detourGraph).
Proof. apply (C7_cost_drops_as_penalty_grows 6). lia. Defined.

(** ** Stations without an adjacency entry *)

(** C2: on the sample network, a query from Times Sq to a station the
    network does not contain never returns: the destination reads distance
    [0] instead of infinity, and the back-pointers of the destination and
    of the empty name lead to the empty name for ever.  This holds for
    every queue and every amount of fuel. *)
Theorem C2_absent_destination_never_returns {Q : PQueue} {QL : PQueueLaws Q} :
  forall fuel, dijkstra fuel sampleGraph "Times Sq" "Nowhere" 2 = None.
Proof.
  apply (dijkstra_diverges_by_orders 40 ["Nowhere"; ""]).
  vm_compute. reflexivity.
Qed.

Lemma C2_absent_destination_never_returns_witness :
  dijkstra (Q := ListPQ) 1000 sampleGraph "Times Sq" "Nowhere" 2 = None.
Proof. exact (C2_absent_destination_never_returns 1000%nat). Defined.

(** C8: a query whose source has no adjacency entry, to a destination that
    has one, returns the unreachable result and leaves the adjacency map
    with a new, empty entry for the source. *)
Theorem C8_query_adds_entry {Q : PQueue} {QL : PQueueLaws Q} :
  forall (fuel : nat) (g : Graph) (s d : string) (p : Z),
    g !! s = None -> is_Some (g !! d) ->
    dijkstra (S (S fuel)) g s d p = Some ((-1, []), <[s := []]> g)
    /\ <[s := []]> g <> g.
Proof.
  intros fuel g s d p Hs [es Hd].
  assert (Hne : s <> d) by congruence.
  split.
  - unfold dijkstra. simpl.
    destruct (pop_first (mkNode 0 s "")) as (q' & -> & Hq').
    unfold visit. simpl. unfold dist_at at 1. rewrite lookup_insert_eq. simpl.
    destruct (String.eqb_spec s d); [done|].
    unfold adj_index. rewrite Hs. simpl.
    rewrite (pop_empty _ Hq'). unfold finish. simpl.
    unfold dist_at. rewrite lookup_insert_ne by done.
    rewrite lookup_fmap, Hd. done.
  - intros Heq. assert (H := lookup_insert_eq g s []).
    rewrite Heq, Hs in H. done.
Qed.

Lemma C8_query_adds_entry_witness :
  dijkstra (Q := ListPQ) 2 sampleGraph "Nowhere" "Times Sq" 2
  = Some ((-1, []), <["Nowhere" := []]> sampleGraph)
  /\ <["Nowhere" := []]> sampleGraph <> sampleGraph.
Proof.
  apply (C8_query_adds_entry 0 sampleGraph "Nowhere" "Times Sq" 2).
  - vm_compute. reflexivity.
  - vm_compute. eexists. reflexivity.
Defined.

(** ** Inputs that are not validated *)

(** C10, as stated, fails: [addEdge] stores an edge of cost [-5], and
    [dijkstra] runs with penalty [-2] and returns a route. *)
Lemma C10_counterexample :
  neighbors (addEdge ∅ "A" "B" (-5) "1") "A" = [mkEdge "B" (-5) "1"]
  /\ dijkstra (Q := ListPQ) 5 sampleGraph "Times Sq" "Grand Central" (-2)
     = Some ((5, [("Times Sq", ""); ("42nd St", "1"); ("Grand Central", "2")]),
             sampleGraph).
Proof. split; apply (bool_decide_eq_true_1 _); vm_compute; reflexivity. Qed.

(** C10 (amended): [addEdge] stores the edge with the cost it is given,
    whatever its sign; [dijkstra] uses the transfer penalty it is given,
    whatever its sign: a line change adds exactly that penalty, and on the
    sample network the route from Times Sq to Grand Central with penalty
    [-2] is returned with cost [4 + 3 - 2 = 5]. *)
Theorem C10_inputs_taken_as_given {Q : PQueue} {QL : PQueueLaws Q} :
  (forall (g : Graph) (from to : string) (c : Z) (l : string),
     neighbors (addEdge g from to c l) from
     = neighbors g from ++ [mkEdge to c l])
  /\ (forall (l1 l2 : string) (p : Z),
        l1 <> "" -> l1 <> l2 -> transfer_extra l1 l2 p = p)
  /\ (forall fuel, (5 <= fuel)%nat ->
        dijkstra fuel sampleGraph "Times Sq" "Grand Central" (-2)
        = Some ((5, [("Times Sq", ""); ("42nd St", "1");
                     ("Grand Central", "2")]), sampleGraph)).
Proof.
  split; [|split].
  - intros. apply neighbors_addEdge.
  - intros l1 l2 p H1 H2. rewrite transfer_extra_spec.
    case_decide; tauto.
  - apply dijkstra_by_orders. vm_compute. reflexivity.
Qed.

Lemma C10_inputs_taken_as_given_witness :
  (forall (g : Graph) (from to : string) (c : Z) (l : string),
     neighbors (addEdge g from to c l) from
     = neighbors g from ++ [mkEdge to c l])
  /\ (forall (l1 l2 : string) (p : Z),
        l1 <> "" -> l1 <> l2 -> transfer_extra l1 l2 p = p)
  /\ (forall fuel, (5 <= fuel)%nat ->
        dijkstra (Q := ListPQ) fuel sampleGraph "Times Sq" "Grand Central" (-2)
        = Some ((5, [("Times Sq", ""); ("42nd St", "1");
                     ("Grand Central", "2")]), sampleGraph)).
Proof. exact (C10_inputs_taken_as_given (Q := ListPQ)). Defined.

(** ** The transfer penalty and the none line *)

(** C6, as stated, fails: [addEdge] stores an edge whose label is the empty
    string, the value the node of the source carries, and the search then
    charges no transfer between that edge and an edge of line 1. *)
Lemma C6_counterexample :
  mkEdge "B" 1 "" ∈ neighbors unnamedLineGraph "A"
  /\ line (mkEdge "B" 1 "")
     = node_line (mkNode 0 "A" "")
  /\ dijkstra (Q := ListPQ) 4 unnamedLineGraph "A" "C" 5
     = Some ((2, [("A", ""); ("B", ""); ("C", "1")]), unnamedLineGraph).
Proof.
  split; [|split].
  - apply list_elem_of_In. vm_compute. tauto.
  - reflexivity.
  - apply (bool_decide_eq_true_1 _). vm_compute. reflexivity.
Qed.

(** C6 (amended): a relaxation step adds the transfer penalty when the line
    of the popped node is not the empty string and differs from the line of
    the edge, and nothing otherwise.  The node pushed for the source carries
    the empty string, so an edge taken from the source adds nothing.  The
    empty string differs from every non-empty label, but [addEdge] stores
    an empty label like any other, and an edge taken after an edge with the
    empty label adds nothing either. *)
Theorem C6_transfer_penalty {Q : PQueue} :
  (forall (current : Node) (p : Z) (st : SearchState) (e : Edge),
     let extra :=
       if decide (node_line current <> "" /\ node_line current <> line e)
       then p else 0 in
     let newCost := int_add (int_add (node_cost current) (cost e)) extra in
     relax current p st e
     = if newCost <? dist_at (dist st) (destination e) then
         {| dist := <[destination e := newCost]> (dist st);
            parent := <[destination e := (node_station current, line e)]>
                        (parent st);
            queue := pq_push (mkNode newCost (destination e) (line e))
                       (queue st) |}
       else st)
  /\ (forall (g : Graph) (s : string),
        queue (init_state g s) = pq_push (mkNode 0 s "") pq_empty)
  /\ (forall (l : string) (p : Z), transfer_extra "" l p = 0)
  /\ (forall (s l : string), l <> "" -> node_line (mkNode 0 s "") <> l)
  /\ (forall (g : Graph) (from to : string) (c : Z),
        neighbors (addEdge g from to c "") from
        = neighbors g from ++ [mkEdge to c ""]).
Proof.
  split; [|split; [|split; [|split]]].
  - intros current p st e. unfold relax. cbv zeta.
    by rewrite transfer_extra_spec.
  - done.
  - done.
  - intros s l Hl. simpl. congruence.
  - intros. apply neighbors_addEdge.
Qed.

(** ** Back-pointers that never reach the source *)

(** C3, as stated, fails: on [loopGraph] with transfer penalty [-10] the
    back-pointers of U and W point at each other when the search stops at
    D, and no queue and no amount of fuel let [dijkstra] return. *)
Lemma C3_counterexample :
  ~ exists (Q : PQueue) (QL : PQueueLaws Q) fuel r,
      dijkstra fuel loopGraph "S" "D" (-10) = Some r.
Proof.
  intros (Q & QL & fuel & r & Hr).
  rewrite (dijkstra_diverges_by_orders 10 ["D"; "U"; "W"]) in Hr; [done|].
  vm_compute. reflexivity.
Qed.

(** C4, as stated, fails: on [unnamedLineGraph] with transfer penalty 5
    the returned cost is 2, while the edges of the returned itinerary cost
    [1 + 1] and change from the empty label to line 1. *)
Lemma C4_counterexample :
  dijkstra (Q := ListPQ) 4 unnamedLineGraph "A" "C" 5
  = Some ((2, [("A", ""); ("B", ""); ("C", "1")]), unnamedLineGraph)
  /\ ~ exists es, is_walk unnamedLineGraph "A" es "C"
                  /\ itinerary_of "A" es = [("A", ""); ("B", ""); ("C", "1")]
                  /\ route_cost 5 None es = 2.
Proof.
  split; [apply (bool_decide_eq_true_1 _); vm_compute; reflexivity|].
  intros (es & Hw & Hit & Hc).
  destruct es as [|e1 [|e2 [|e3 es]]]; try done.
  destruct Hw as (H1 & H2 & _).
  apply list_elem_of_In in H1, H2.
  destruct e1 as [d1 c1 l1], e2 as [d2 c2 l2].
  unfold itinerary_of in Hit. simpl in Hit. simplify_eq.
  vm_compute in H1, H2.
  destruct H1 as [H1|[]]. destruct H2 as [H2|[]].
  assert (c1 = 1) as -> by congruence.
  assert (c2 = 1) as -> by congruence.
  vm_compute in Hc. done.
Qed.

(** ** Arithmetic and bookkeeping *)

Lemma wrap_small z : INT_MIN <= z <= INT_MAX -> wrap z = z.
Proof.
  unfold wrap, INT_MIN, INT_MAX. intros Hz.
  rewrite Z.mod_small; lia.
Qed.

Lemma neighbors_elem g u e :
  e ∈ neighbors g u -> exists es, g !! u = Some es /\ e ∈ es.
Proof.
  unfold neighbors. destruct (g !! u) as [es|]; simpl.
  - intros He. by exists es.
  - intros He. by apply elem_of_nil in He.
Qed.

Lemma neighbors_all_edges g u e : e ∈ neighbors g u -> In e (all_edges g).
Proof.
  intros (es & Hu & He)%neighbors_elem.
  unfold all_edges. apply in_flat_map. exists (u, es). split.
  - apply list_elem_of_In. by apply elem_of_map_to_list.
  - by apply list_elem_of_In.
Qed.

Lemma costs_within_edge W g u e :
  costs_within W g = true -> e ∈ neighbors g u -> 0 <= cost e <= W.
Proof.
  unfold costs_within. rewrite forallb_forall. intros Hall He.
  specialize (Hall e (neighbors_all_edges _ _ _ He)).
  apply andb_true_iff in Hall as [H1 H2]. lia.
Qed.

Lemma lines_named_edge g u e :
  lines_named g = true -> e ∈ neighbors g u -> line e <> "".
Proof.
  unfold lines_named. rewrite forallb_forall. intros Hall He.
  specialize (Hall e (neighbors_all_edges _ _ _ He)).
  apply negb_true_iff in Hall. by apply String.eqb_neq.
Qed.

Lemma length_stations g s : (length (stations g s) <= size g + 1)%nat.
Proof.
  unfold stations. change (length (elements ?X)) with (size X).
  rewrite size_union_alt, size_dom.
  assert (size ({[s]} ∖ dom g : gset string) <= size ({[s]} : gset string))%nat
    by (apply subseteq_size; intros x [Hx _]%elem_of_difference; exact Hx).
  rewrite size_singleton in *. lia.
Qed.

Lemma elem_of_stations g s u :
  u ∈ stations g s <-> u ∈ dom g ∪ ({[s]} : gset string).
Proof. unfold stations. apply elem_of_elements. Qed.

Lemma degree_sum_perm g l k : l ≡ₚ k -> degree_sum g l = degree_sum g k.
Proof.
  unfold degree_sum. induction 1; simpl; lia.
Qed.

Lemma adj_index_neighbors adj k :
  fst (adj_index adj k) = neighbors adj k
  /\ forall u, neighbors (snd (adj_index adj k)) u = neighbors adj u.
Proof.
  split; [|intros u; apply adj_index_keeps].
  unfold adj_index, neighbors. by destruct (adj !! k).
Qed.

Lemma chain_ext par par' s l :
  chain par s l -> (forall u, u ∈ l -> parent_at par' u = parent_at par u) ->
  chain par' s l.
Proof.
  induction 1 as [|u l Hu Hc IH]; intros Hsame; constructor.
  - destruct Hu as [->|Hu]; [by left|right].
    rewrite Hsame; [done|left].
  - apply IH. intros x Hx. apply Hsame. by right.
Qed.

Lemma dist_at_insert ds v c u :
  dist_at (<[v := c]> ds) u = if decide (v = u) then c else dist_at ds u.
Proof. unfold dist_at. rewrite lookup_insert. by case_decide. Qed.

Lemma parent_at_insert par v x u :
  parent_at (<[v := x]> par) u = if decide (v = u) then x else parent_at par u.
Proof. unfold parent_at. rewrite lookup_insert. by case_decide. Qed.

Lemma ride_cost_snoc p l es e :
  ride_cost p l (es ++ [e])
  = ride_cost p l es + cost e + transfer_extra (last_line l es) (line e) p.
Proof.
  revert l. induction es as [|a es IH]; intros l; simpl; [lia|].
  rewrite IH. lia.
Qed.

Lemma last_line_snoc l es e : last_line l (es ++ [e]) = line e.
Proof. revert l. induction es as [|a es IH]; intros l; simpl; [done|apply IH]. Qed.

Lemma is_walk_snoc g s es u e :
  is_walk g s es u -> e ∈ neighbors g u -> is_walk g s (es ++ [e]) (destination e).
Proof.
  revert s. induction es as [|a es IH]; intros s; simpl.
  - intros -> He. done.
  - intros [Ha Hw] He. split; [done|]. by apply IH.
Qed.

Lemma is_walk_edges g s es d e :
  is_walk g s es d -> e ∈ es -> exists u, e ∈ neighbors g u.
Proof.
  revert s. induction es as [|a es IH]; intros s Hw He.
  - by apply elem_of_nil in He.
  - destruct Hw as [Ha Hw]. apply elem_of_cons in He as [->|He].
    + by exists s.
    + by apply (IH (destination a)).
Qed.

Lemma itinerary_last g es : forall s l d,
  is_walk g s es d ->
  fst <$> last ((s, l) :: map (fun e => (destination e, line e)) es) = Some d.
Proof.
  induction es as [|e es IH]; intros s l d Hw; simpl in *.
  - by subst.
  - destruct Hw as [_ Hw]. by apply (IH _ (line e)).
Qed.

Lemma ride_cost_route_cost p l es :
  (forall e, e ∈ es -> line e <> "") ->
  ride_cost p l es
  = route_cost p (if String.eqb l "" then None else Some l) es.
Proof.
  revert l. induction es as [|a es IH]; intros l Hne; simpl; [done|].
  assert (Ha : line a <> "") by (apply Hne; left).
  rewrite IH by (intros e He; apply Hne; by right).
  apply String.eqb_neq in Ha. rewrite Ha.
  unfold transfer_extra.
  destruct (String.eqb l ""); simpl; [lia|].
  destruct (String.eqb l (line a)); simpl; lia.
Qed.

(** ** The invariant holds throughout the search *)

Section Invariant.
Context {Q : PQueue} {QL : PQueueLaws Q}.
Variables (g : Graph) (source : string) (p W : Z).
Hypothesis Hcosts : costs_within W g = true.
Hypothesis HW : 0 <= W.
Hypothesis Hp : 0 <= p.
Hypothesis Hbound : (Z.of_nat (size g) + 1) * (W + p) < INT_MAX.

Lemma done_bound done rest (st : SearchState) :
  inv g source p W done rest st ->
  Z.of_nat (length done) * (W + p) < INT_MAX.
Proof.
  intros HI. assert (Hl := length_stations g source).
  rewrite <- (inv_perm _ _ _ _ _ _ _ HI), length_app in Hl.
  nia.
Qed.

Lemma inv_init : inv g source p W [] (stations g source) (init_state g source).
Proof.
  assert (He : forall n, n ∈ pq_elems (queue (init_state g source)) ->
                         n = mkNode 0 source "").
  { intros n. simpl. rewrite pq_elems_push, pq_elems_empty.
    by intros ->%list_elem_of_singleton. }
  constructor; simpl.
  - done.
  - rewrite dom_insert_L, dom_fmap_L. apply set_eq. intros x.
    rewrite !elem_of_union. tauto.
  - apply lookup_insert_eq.
  - unfold parent_at. by rewrite lookup_insert_eq.
  - intros v c. rewrite lookup_insert. case_decide.
    + intros [= <-]. done.
    + rewrite lookup_fmap. destruct (g !! v); simpl; [|done].
      intros [= <-]. done.
  - intros n ->%He. simpl. unfold dist_at. rewrite lookup_insert_eq. simpl.
    split; [by eexists|]. lia.
  - intros n ->%He _. simpl. unfold parent_at. rewrite lookup_insert_eq.
    split; [done|]. apply not_elem_of_nil.
  - rewrite pq_elems_push, pq_elems_empty. simpl.
    apply NoDup_singleton.
  - intros u n Hu. by apply elem_of_nil in Hu.
  - intros u Hu. by apply elem_of_nil in Hu.
  - intros v c Hne. rewrite lookup_insert_ne by done.
    rewrite lookup_fmap. destruct (g !! v); simpl; [|done].
    intros [= <-]. lia.
  - constructor.
  - intros v. rewrite !lookup_insert. case_decide; [by eexists|].
    rewrite lookup_empty. by intros [? ?].
Qed.

(** Taking a node out of the queue keeps the invariant. *)
Lemma inv_drop done rest (st : SearchState) n q' :
  inv g source p W done rest st ->
  pq_elems (queue st) ≡ₚ n :: pq_elems q' ->
  inv g source p W done rest
    {| dist := dist st; parent := parent st; queue := q' |}.
Proof.
  intros HI Hq.
  assert (Hsub : forall m, m ∈ pq_elems q' -> m ∈ pq_elems (queue st)).
  { intros m Hm. rewrite Hq. by right. }
  destruct HI. constructor; simpl; try done.
  - intros m Hm. by apply inv_q_ge0, Hsub.
  - intros m Hm. by apply inv_q_exact0, Hsub.
  - rewrite Hq in inv_q_nodup0. simpl in inv_q_nodup0.
    by apply NoDup_cons_1_2 in inv_q_nodup0.
  - intros u m Hu Hm. by apply inv_done_le0, Hsub.
Qed.

(** A popped node that is not stale settles its station. *)
Lemma inv_settle done rest (st : SearchState) n q' :
  inv g source p W done rest st ->
  pq_pop (queue st) = Some (n, q') ->
  ~ dist_at (dist st) (node_station n) < node_cost n ->
  exists rest',
    rest ≡ₚ node_station n :: rest'
    /\ inv g source p W (node_station n :: done) rest'
         {| dist := dist st; parent := parent st; queue := q' |}
    /\ expanding p W (node_station n :: done)
         {| dist := dist st; parent := parent st; queue := q' |} n.
Proof.
  intros HI Hpop Hns.
  destruct (pq_pop_Some _ _ _ Hpop) as [Hq Hmin].
  assert (Hn : n ∈ pq_elems (queue st)) by (rewrite Hq; left).
  assert (Hdrop := inv_drop _ _ _ _ _ HI Hq).
  assert (Hb := done_bound _ _ _ HI).
  destruct (inv_q_ge _ _ _ _ _ _ _ HI n Hn) as (Hsome & Hge & Hc0 & Hc1).
  assert (Hex : dist_at (dist st) (node_station n) = node_cost n) by lia.
  destruct (inv_q_exact _ _ _ _ _ _ _ HI n Hn Hex) as [Hline Hnd].
  assert (Hst : node_station n ∈ stations g source).
  { apply elem_of_stations. rewrite <- (inv_dom _ _ _ _ _ _ _ HI).
    by apply elem_of_dom. }
  rewrite <- (inv_perm _ _ _ _ _ _ _ HI) in Hst.
  apply elem_of_app in Hst as [Hst|Hst]; [done|].
  apply elem_of_Permutation in Hst as [rest' Hrest].
  assert (Hkey : node_key n ∉ map node_key (pq_elems q')).
  { assert (Hnd' := inv_q_nodup _ _ _ _ _ _ _ HI).
    rewrite Hq in Hnd'. simpl in Hnd'. by apply NoDup_cons_1_1 in Hnd'. }
  exists rest'. split; [done|]. split.
  - destruct Hdrop. constructor; simpl in *; try done.
    + rewrite <- (inv_perm _ _ _ _ _ _ _ HI), Hrest.
      by rewrite <- Permutation_middle.
    + intros m Hm. destruct (inv_q_ge0 m Hm) as (? & ? & ? & ?).
      repeat split; try done. nia.
    + intros m Hm Hxm. destruct (inv_q_exact0 m Hm Hxm) as [Hl Hd].
      split; [done|]. apply not_elem_of_cons. split; [|done].
      intros Heq. apply Hkey. apply list_elem_of_In, in_map_iff.
      exists m. split; [|by apply list_elem_of_In].
      unfold node_key. rewrite Heq in Hxm |- *. f_equal. lia.
    + intros u m [->|Hu]%elem_of_cons Hm.
      * rewrite Hex. rewrite Forall_forall in Hmin. by apply Hmin.
      * by apply inv_done_le0.
    + intros u [->|Hu]%elem_of_cons; [lia|by apply inv_done_fin0].
    + intros v c Hv Hc Hlt. destruct (inv_tree0 v c Hv Hc Hlt) as [Hin Hr].
      split; [by right|done].
    + constructor; [|done].
      destruct (decide (node_station n = source)) as [|Hne]; [by left|right].
      destruct Hsome as [c Hc].
      assert (c = node_cost n) as ->.
      { unfold dist_at in Hex. by rewrite Hc in Hex. }
      apply (inv_tree0 _ _ Hne Hc). lia.
  - constructor; simpl; try done.
    + left.
    + split; [done|]. rewrite Nat2Z.inj_succ. nia.
    + intros u [->|Hu]%elem_of_cons; [lia|].
      by apply (inv_done_le _ _ _ _ _ _ _ HI).
Qed.
(** Relaxing one edge of the settled node keeps the invariant. *)
Lemma relax_inv done rest (st : SearchState) n e :
  inv g source p W done rest st ->
  expanding p W done st n ->
  e ∈ neighbors g (node_station n) ->
  inv g source p W done rest (relax n p st e)
  /\ expanding p W done (relax n p st e) n
  /\ (length (pq_elems (queue (relax n p st e)))
      <= S (length (pq_elems (queue st))))%nat.
Proof.
  intros HI HE He.
  destruct (costs_within_edge _ _ _ _ Hcosts He) as [Hc0 Hc1].
  assert (Hx : 0 <= transfer_extra (node_line n) (line e) p <= p).
  { unfold transfer_extra. destruct (_ && _); lia. }
  assert (Hb := done_bound _ _ _ HI).
  destruct (exp_bound _ _ _ _ _ HE) as [Hn0 Hn1].
  assert (Hxl := exp_line _ _ _ _ _ HE).
  assert (Hxd := exp_dist _ _ _ _ _ HE).
  assert (Hxin := exp_done _ _ _ _ _ HE).
  unfold relax. cbv zeta. unfold int_add.
  rewrite (wrap_small (node_cost n + cost e)) by (unfold INT_MIN; lia).
  rewrite wrap_small by (unfold INT_MIN; lia).
  remember (transfer_extra (node_line n) (line e) p) as extra eqn:Hextra.
  remember (node_cost n + cost e + extra) as newCost eqn:HnewCost.
  remember (destination e) as v eqn:Hv.
  destruct (Z.ltb_spec newCost (dist_at (dist st) v)) as [Hlt|Hge];
    [|split; [done|split; [done|lia]]].
  assert (Hvd : v ∉ done).
  { intros Hin. assert (H := exp_le _ _ _ _ _ HE v Hin). lia. }
  assert (Hvs : v <> source).
  { intros Heq. unfold dist_at in Hlt.
    rewrite Heq, (inv_src _ _ _ _ _ _ _ HI) in Hlt. simpl in Hlt. lia. }
  assert (Hsome : is_Some (dist st !! v)).
  { destruct (dist st !! v) eqn:E; [eauto|].
    unfold dist_at in Hlt. rewrite E in Hlt. simpl in Hlt. lia. }
  assert (Hfd : forall u, u ∈ done ->
            dist_at (<[v := newCost]> (dist st)) u = dist_at (dist st) u).
  { intros u Hu. rewrite dist_at_insert. case_decide; [by subst|done]. }
  assert (Hfp : forall u x, u ∈ done ->
            parent_at (<[v := x]> (parent st)) u = parent_at (parent st) u).
  { intros u x Hu. rewrite parent_at_insert. case_decide; [by subst|done]. }
  assert (Hq : forall x m, m ∈ pq_elems (pq_push x (queue st))
                           <-> m = x \/ m ∈ pq_elems (queue st)).
  { intros x m. rewrite pq_elems_push. apply elem_of_cons. }
  split; [|split].
  - destruct HI. constructor; simpl.
    + done.
    + rewrite dom_insert_L, inv_dom0.
      assert (Hvdom : v ∈ dom g ∪ ({[source]} : gset string))
        by (rewrite <- inv_dom0; by apply elem_of_dom).
      apply set_eq. intros x. rewrite elem_of_union, elem_of_singleton.
      split; [intros [->|?]; done|by right].
    + by rewrite lookup_insert_ne.
    + rewrite parent_at_insert. by case_decide.
    + intros x c. rewrite lookup_insert. case_decide.
      * intros [= <-]. lia.
      * apply inv_le_max0.
    + intros m [->|Hm]%Hq; simpl.
      * rewrite lookup_insert_eq, dist_at_insert. case_decide; [|done].
        split; [by eexists|]. lia.
      * destruct (inv_q_ge0 m Hm) as (Hs & Hd & Hr).
        rewrite dist_at_insert. split.
        { rewrite lookup_insert. case_decide; [by eexists|done]. }
        split; [|done]. case_decide as Hvm; [|done].
        rewrite <- Hvm in Hd. lia.
    + intros m [->|Hm]%Hq; simpl.
      * intros _. rewrite parent_at_insert. by case_decide.
      * rewrite dist_at_insert, parent_at_insert. case_decide as Hvm.
        -- intros Hxm. destruct (inv_q_ge0 m Hm) as (_ & Hd & _).
           rewrite <- Hvm in Hd. lia.
        -- by apply inv_q_exact0.
    + rewrite pq_elems_push. simpl. apply NoDup_cons. split; [|done].
      intros Hin. apply list_elem_of_In, in_map_iff in Hin as (m & Hk & Hm).
      apply list_elem_of_In in Hm.
      destruct (inv_q_ge0 m Hm) as (_ & Hd & _).
      unfold node_key in Hk. simpl in Hk. injection Hk as Hk1 Hk2.
      rewrite Hk1 in Hd. lia.
    + intros u m Hu [->|Hm]%Hq; rewrite Hfd by done.
      * simpl. assert (H := exp_le _ _ _ _ _ HE u Hu). lia.
      * by apply inv_done_le0.
    + intros u Hu. rewrite Hfd by done. by apply inv_done_fin0.
    + intros x c Hxs. rewrite lookup_insert. case_decide as Hvx.
      * subst x. intros [= <-] _. unfold reached_by_edge.
        rewrite !parent_at_insert. rewrite decide_True by done. simpl.
        rewrite decide_False by (intros ->; done).
        rewrite !dist_at_insert. rewrite decide_True by done.
        rewrite decide_False by (intros ->; done).
        split; [done|]. exists e. rewrite <- Hxl, Hxd. by subst.
      * intros Hc Hlt'.
        destruct (inv_tree0 x c Hxs Hc Hlt') as [Hin (e' & He' & Hd' & Hl' & Hcost)].
        unfold reached_by_edge.
        rewrite (parent_at_insert _ v _ x). rewrite decide_False by done.
        rewrite (dist_at_insert _ v _ x). rewrite decide_False by done.
        rewrite Hfp by done. rewrite Hfd by done.
        split; [done|]. by exists e'.
    + apply chain_ext with (parent st); [done|].
      intros u Hu. by apply Hfp.
    + intros x. rewrite !lookup_insert. case_decide; [by eexists|].
      apply inv_par_dom0.
  - constructor; simpl.
    + done.
    + by rewrite Hfd.
    + by rewrite Hfp.
    + done.
    + intros u Hu. rewrite Hfd by done. by apply (exp_le _ _ _ _ _ HE).
  - simpl. rewrite pq_elems_push. simpl. lia.
Qed.

Lemma fold_relax_inv done rest n es : forall (st : SearchState),
  inv g source p W done rest st ->
  expanding p W done st n ->
  (forall e, e ∈ es -> e ∈ neighbors g (node_station n)) ->
  inv g source p W done rest (fold_left (relax n p) es st)
  /\ (length (pq_elems (queue (fold_left (relax n p) es st)))
      <= length (pq_elems (queue st)) + length es)%nat.
Proof.
  induction es as [|e es IH]; intros st HI HE Hes; simpl.
  - split; [done|lia].
  - destruct (relax_inv _ _ _ _ e HI HE) as (HI' & HE' & Hl).
    { apply Hes. left. }
    destruct (IH _ HI' HE') as [HI'' Hl'].
    { intros x Hx. apply Hes. by right. }
    split; [done|lia].
Qed.
(** The loop ends within the fuel that the queue and the edges of the
    stations not yet settled account for, and ends in a state of the
    invariant. *)
Lemma search_runs dest : forall fuel done rest adj (st : SearchState),
  inv g source p W done rest st ->
  (forall u, neighbors adj u = neighbors g u) ->
  (length (pq_elems (queue st)) + degree_sum g rest < fuel)%nat ->
  exists adj' st' done' rest',
    search fuel dest p adj st = Some (adj', st')
    /\ inv g source p W done' rest' st'
    /\ (forall u, neighbors adj' u = neighbors g u).
Proof.
  induction fuel as [|fuel IH]; intros done rest adj st HI Hadj Hm; [lia|].
  simpl. destruct (pq_pop (queue st)) as [[n q']|] eqn:E.
  - destruct (pq_pop_Some _ _ _ E) as [Hq Hmin].
    assert (Hlen : length (pq_elems (queue st)) = S (length (pq_elems q')))
      by (by rewrite Hq).
    unfold visit.
    destruct (Z.ltb_spec (dist_at (dist st) (node_station n)) (node_cost n))
      as [Hstale|Hfresh].
    + apply IH with done rest; [by eapply inv_drop|done|simpl; lia].
    + destruct (String.eqb (node_station n) dest).
      * eexists _, _, done, rest. split; [done|].
        split; [by eapply inv_drop|done].
      * destruct (inv_settle _ _ _ _ _ HI E) as (rest' & Hrest & HI' & HE');
          [lia|].
        destruct (adj_index_neighbors adj (node_station n)) as [He Ha].
        destruct (adj_index adj (node_station n)) as [es adj'] eqn:Eadj.
        simpl in He, Ha.
        destruct (fold_relax_inv _ _ n es _ HI' HE') as [HI'' Hl].
        { intros e Hin. by rewrite <- Hadj, <- He. }
        apply IH with (node_station n :: done) rest'; [done| |].
        -- intros u. by rewrite Ha.
        -- simpl in Hl. rewrite (degree_sum_perm _ _ _ Hrest) in Hm.
           unfold degree_sum in Hm. simpl in Hm. fold (degree_sum g rest') in Hm.
           rewrite <- Hadj, <- He in Hm. lia.
  - eexists _, _, done, rest. done.
Qed.

(** Following the back-pointers from a settled station arrives at the
    source along stored edges, and the walk costs what the table says. *)
Lemma reconstruct_chain ds par l :
  chain par source l ->
  dist_at ds source = 0 ->
  parent_at par source = ("", "") ->
  (forall x, x ∈ l -> x <> source -> reached_by_edge g p ds par x) ->
  forall u, u ∈ l -> forall fuel acc, (length l <= fuel)%nat ->
  exists es,
    is_walk g source es u
    /\ reconstruct fuel par source u acc
       = Some (acc ++ rev (map (fun e => (destination e, line e)) es))
    /\ ride_cost p "" es = dist_at ds u
    /\ last_line "" es = snd (parent_at par u).
Proof.
  intros Hc Hsrc Hpar. induction Hc as [|x l Hx Hc IH];
    intros Hreach u Hu fuel acc Hf.
  { by apply elem_of_nil in Hu. }
  apply elem_of_cons in Hu as [->|Hu].
  2:{ apply IH; [|done|simpl in Hf; lia].
      intros y Hy. apply Hreach. by right. }
  destruct (String.eqb_spec x source) as [->|Hne].
  - exists []. simpl. split; [done|]. split.
    { destruct fuel; simpl; by rewrite String.eqb_refl, app_nil_r. }
    by rewrite Hsrc, Hpar.
  - destruct Hx as [->|Hx]; [done|].
    destruct (Hreach x) as (e & He & Hd & Hl & Hcost); [by left|done|].
    destruct fuel as [|fuel]; [simpl in Hf; lia|].
    destruct (IH (fun y Hy => Hreach y (list_elem_of_further _ _ _ Hy))
                _ Hx fuel (acc ++ [(x, snd (parent_at par x))]))
      as (es & Hw & Hr & Hrc & Hll); [simpl in Hf; lia|].
    exists (es ++ [e]). split; [|split; [|split]].
    + rewrite <- Hd. by apply is_walk_snoc with (fst (parent_at par x)).
    + simpl. apply String.eqb_neq in Hne. rewrite Hne, Hr.
      rewrite map_app, rev_app_distr. simpl. rewrite Hd, Hl.
      by rewrite <- app_assoc.
    + rewrite ride_cost_snoc, Hrc, Hll, Hcost. done.
    + by rewrite last_line_snoc.
Qed.

(** What [dijkstra] does after the loop, from a state of the invariant. *)
Lemma finish_runs dest done rest (st : SearchState) adj fuel :
  inv g source p W done rest st ->
  is_Some (g !! dest) \/ dest = source ->
  (S (length (stations g source)) <= fuel)%nat ->
  exists c it,
    finish fuel source dest adj (dist st) (parent st) = Some ((c, it), adj)
    /\ ((c = -1 /\ it = [])
        \/ exists es, is_walk g source es dest
                      /\ it = itinerary_of source es
                      /\ c = ride_cost p "" es).
Proof.
  intros HI Hdest Hf. unfold finish.
  destruct (Z.eqb_spec (dist_at (dist st) dest) INT_MAX) as [Hinf|Hfin].
  { eexists _, _. split; [done|]. by left. }
  assert (Hsrc : dist_at (dist st) source = 0).
  { unfold dist_at. by rewrite (inv_src _ _ _ _ _ _ _ HI). }
  assert (Hlen : (length done <= length (stations g source))%nat).
  { rewrite <- (inv_perm _ _ _ _ _ _ _ HI), length_app. lia. }
  assert (Hreach : forall x, x ∈ done -> x <> source ->
                             reached_by_edge g p (dist st) (parent st) x).
  { intros x Hx Hne.
    assert (Hxs : x ∈ stations g source).
    { rewrite <- (inv_perm _ _ _ _ _ _ _ HI). apply elem_of_app. by left. }
    apply elem_of_stations in Hxs.
    rewrite <- (inv_dom _ _ _ _ _ _ _ HI) in Hxs.
    apply elem_of_dom in Hxs as [c Hc].
    apply (inv_tree _ _ _ _ _ _ _ HI x c Hne Hc).
    assert (H := inv_done_fin _ _ _ _ _ _ _ HI x Hx).
    unfold dist_at in H. by rewrite Hc in H. }
  destruct (decide (dest = source)) as [->|Hne].
  - exists 0, (itinerary_of source []). split.
    + destruct fuel; simpl; rewrite String.eqb_refl; simpl; by rewrite Hsrc.
    + right. by exists [].
  - destruct Hdest as [Hdest|]; [|done].
    assert (Hd : dest ∈ dom (dist st)).
    { rewrite (inv_dom _ _ _ _ _ _ _ HI). apply elem_of_union. left.
      by apply elem_of_dom. }
    apply elem_of_dom in Hd as [c Hc].
    assert (Hcd : dist_at (dist st) dest = c)
      by (unfold dist_at; by rewrite Hc).
    assert (Hmax := inv_le_max _ _ _ _ _ _ _ HI dest c Hc).
    destruct (inv_tree _ _ _ _ _ _ _ HI dest c Hne Hc) as [Hin Hr]; [lia|].
    destruct Hr as (e & He & Hde & Hl & Hcost).
    destruct fuel as [|fuel]; [lia|].
    destruct (reconstruct_chain (dist st) (parent st) done
                (inv_chain _ _ _ _ _ _ _ HI) Hsrc
                (inv_src_par _ _ _ _ _ _ _ HI) Hreach _ Hin fuel
                [(dest, snd (parent_at (parent st) dest))])
      as (es & Hw & Hrec & Hrc & Hll); [lia|].
    exists c, (itinerary_of source (es ++ [e])). split.
    + simpl. apply String.eqb_neq in Hne. rewrite Hne, Hrec, Hcd.
      do 3 f_equal. unfold itinerary_of.
      rewrite !rev_app_distr, rev_involutive, map_app. simpl.
      by rewrite Hde, Hl.
    + right. exists (es ++ [e]). split; [|split; [done|]].
      * rewrite <- Hde. by apply is_walk_snoc with (fst (parent_at (parent st) dest)).
      * rewrite ride_cost_snoc, Hrc, Hll. lia.
Qed.

(** Within its preconditions [dijkstra] returns: either the unreachable
    result, or a walk of the graph with the cost the search charged for it.
    The adjacency map it leaves behind has the edges it started with. *)
Lemma dijkstra_runs dest fuel :
  is_Some (g !! dest) \/ dest = source ->
  (enough_fuel g source <= fuel)%nat ->
  exists c it g',
    dijkstra fuel g source dest p = Some ((c, it), g')
    /\ (forall u, neighbors g' u = neighbors g u)
    /\ ((c = -1 /\ it = [])
        \/ exists es, is_walk g source es dest
                      /\ it = itinerary_of source es
                      /\ c = ride_cost p "" es).
Proof.
  intros Hdest Hf. unfold enough_fuel in Hf. unfold dijkstra.
  destruct (search_runs dest fuel [] (stations g source) g
              (init_state g source) inv_init (fun u => eq_refl))
    as (adj' & st' & done' & rest' & Hs & HI & Hadj).
  { simpl. rewrite pq_elems_push, pq_elems_empty. simpl. lia. }
  rewrite Hs.
  destruct (finish_runs dest done' rest' st' adj' fuel HI Hdest)
    as (c & it & Hfin & Hres); [lia|].
  exists c, it, adj'. by rewrite Hfin.
Qed.
(** Whatever the fuel, a loop that ends does so in a state of the
    invariant. *)
Lemma search_ends_inv dest fuel adj' (st' : SearchState) :
  search fuel dest p g (init_state g source) = Some (adj', st') ->
  exists done rest, inv g source p W done rest st'.
Proof.
  intros Hs.
  destruct (search_runs dest (fuel + enough_fuel g source) []
              (stations g source) g (init_state g source) inv_init
              (fun u => eq_refl))
    as (adj0 & st0 & done0 & rest0 & Hs0 & HI & _).
  { simpl. rewrite pq_elems_push, pq_elems_empty. unfold enough_fuel.
    simpl. lia. }
  rewrite (search_fuel_mono _ (fuel + enough_fuel g source) _ _ _ _ _ Hs)
    in Hs0 by lia.
  simplify_eq. by exists done0, rest0.
Qed.

(** Within the preconditions on costs, a destination without an adjacency
    entry makes the call run for ever (unless it is the source, or the
    empty name is the source or a station with an entry): its distance
    reads [0], and its back-pointer and that of the empty name read the
    empty name. *)
Lemma absent_destination_never_returns dest :
  g !! dest = None -> dest <> source -> source <> "" -> g !! "" = None ->
  forall fuel, dijkstra fuel g source dest p = None.
Proof.
  intros Hd Hds Hs He fuel. unfold dijkstra.
  destruct (search fuel dest p g (init_state g source)) as [[adj' st']|] eqn:E;
    [|done].
  destruct (search_ends_inv _ _ _ _ E) as (done & rest & HI).
  assert (Habs : forall v, g !! v = None -> v <> source ->
                           dist st' !! v = None /\ parent st' !! v = None).
  { intros v Hv Hvs.
    assert (Hn : dist st' !! v = None).
    { apply not_elem_of_dom. rewrite (inv_dom _ _ _ _ _ _ _ HI).
      rewrite elem_of_union, elem_of_singleton, elem_of_dom.
      intros [[? ?]|?]; congruence. }
    split; [done|].
    destruct (parent st' !! v) eqn:Ep; [|done].
    destruct (inv_par_dom _ _ _ _ _ _ _ HI v) as [c Hc]; [by eexists|].
    congruence. }
  destruct (Habs dest Hd Hds) as [Hdd Hdp].
  destruct (Habs "" He (not_eq_sym Hs)) as [_ Hep].
  unfold finish, dist_at. rewrite Hdd. simpl.
  rewrite (trapped_reconstruct _ _ [dest; ""]); [done|].
  apply trapped_intro; [by left|].
  intros x [<-|[<-|[]]]; unfold parent_at.
  - rewrite Hdp. simpl. auto.
  - rewrite Hep. simpl. auto.
Qed.
End Invariant.

(** ** Termination and itineraries within the preconditions *)

(** Within the preconditions, a destination with an adjacency entry that no
    walk of the graph reaches gets the unreachable result. *)
Lemma unreachable_result {Q : PQueue} {QL : PQueueLaws Q}
    (g : Graph) (source dest : string) (p W : Z) (fuel : nat) :
  costs_within W g = true -> 0 <= W -> 0 <= p ->
  (Z.of_nat (size g) + 1) * (W + p) < INT_MAX ->
  is_Some (g !! dest) ->
  (forall es, ~ is_walk g source es dest) ->
  (enough_fuel g source <= fuel)%nat ->
  exists g', dijkstra fuel g source dest p = Some ((-1, []), g').
Proof.
  intros Hc HW Hp Hb Hd Hno Hf.
  destruct (dijkstra_runs g source p W Hc HW Hp Hb dest fuel (or_introl Hd) Hf)
    as (c & it & g' & Hr & _ & [[-> ->]|(es & Hw & _)]).
  - by exists g'.
  - by destruct (Hno es).
Qed.

(** C3 (amended): when every edge cost lies in [[0, W]], the transfer
    penalty is not negative, [(size g + 1) * (W + p)] stays below
    [INT_MAX], and the destination has an adjacency entry or is the source,
    [dijkstra] returns: one result for every amount of fuel from
    [enough_fuel g source] on, whatever the queue. *)
Theorem C3_terminates_within_preconditions {Q : PQueue} {QL : PQueueLaws Q} :
  forall (g : Graph) (source dest : string) (p W : Z),
    costs_within W g = true -> 0 <= W -> 0 <= p ->
    (Z.of_nat (size g) + 1) * (W + p) < INT_MAX ->
    is_Some (g !! dest) \/ dest = source ->
    exists r, forall fuel, (enough_fuel g source <= fuel)%nat ->
      dijkstra fuel g source dest p = Some r.
Proof.
  intros g source dest p W Hc HW Hp Hb Hd.
  destruct (dijkstra_runs g source p W Hc HW Hp Hb dest
              (enough_fuel g source) Hd (le_n _))
    as (c & it & g' & Hr & _).
  exists ((c, it), g'). intros fuel Hf.
  by apply dijkstra_fuel_mono with (enough_fuel g source).
Qed.

Lemma C3_terminates_within_preconditions_witness :
  exists r, forall fuel, (enough_fuel sampleGraph "Times Sq" <= fuel)%nat ->
    dijkstra (Q := ListPQ) fuel sampleGraph "Times Sq" "Canal St" 2 = Some r.
Proof.
  apply (C3_terminates_within_preconditions sampleGraph "Times Sq" "Canal St" 2 7).
  - vm_compute. reflexivity.
  - lia.
  - lia.
  - vm_compute. reflexivity.
  - left. vm_compute. eexists. reflexivity.
Defined.

(** C4 (amended): when every edge cost lies in [[0, W]], no edge is
    labelled with the empty string, the transfer penalty is not negative,
    [(size g + 1) * (W + p)] stays below [INT_MAX], and the destination has
    an adjacency entry or is the source, every itinerary [dijkstra] returns
    is the itinerary of a walk of stored edges from the source to the
    destination: it starts with the source and the none line, every
    further entry is the destination and the line of the next edge of the
    walk, and the returned cost is the sum of the edge costs plus one
    transfer penalty for each change of line along the walk. *)
Theorem C4_itinerary_valid_within_preconditions
    {Q : PQueue} {QL : PQueueLaws Q} :
  forall (g : Graph) (source dest : string) (p W : Z) (fuel : nat)
         (c : Z) (it : list (string * string)) (g' : Graph),
    costs_within W g = true -> lines_named g = true ->
    0 <= W -> 0 <= p ->
    (Z.of_nat (size g) + 1) * (W + p) < INT_MAX ->
    is_Some (g !! dest) \/ dest = source ->
    dijkstra fuel g source dest p = Some ((c, it), g') ->
    it <> [] ->
    head it = Some (source, "")
    /\ fst <$> last it = Some dest
    /\ exists es, is_walk g source es dest
                  /\ it = itinerary_of source es
                  /\ c = route_cost p None es.
Proof.
  intros g source dest p W fuel c it g' Hc Hl HW Hp Hb Hd Hrun Hit.
  destruct (dijkstra_runs g source p W Hc HW Hp Hb dest
              (enough_fuel g source) Hd (le_n _))
    as (c0 & it0 & g0 & Hr & _ & Hres).
  assert (Heq := dijkstra_fuel_agree _ _ _ _ _ _ _ _ Hrun Hr).
  simplify_eq. destruct Hres as [[_ ->]|(es & Hw & -> & ->)]; [done|].
  split; [done|]. split; [by apply itinerary_last with g|].
  exists es. split; [done|]. split; [done|].
  rewrite (ride_cost_route_cost p "" es); [done|].
  intros e He. destruct (is_walk_edges _ _ _ _ _ Hw He) as [u Hu].
  by apply lines_named_edge with g u.
Qed.

Lemma C4_itinerary_valid_within_preconditions_witness :
  let it := [("Times Sq", ""); ("42nd St", "1"); ("Grand Central", "2");
             ("Union Sq", "Interchange"); ("Houston St", "3");
             ("Canal St", "3")] in
  head it = Some ("Times Sq", "")
  /\ fst <$> last it = Some "Canal St"
  /\ exists es, is_walk sampleGraph "Times Sq" es "Canal St"
                /\ it = itinerary_of "Times Sq" es
                /\ 29 = route_cost 2 None es.
Proof.
  apply (C4_itinerary_valid_within_preconditions (Q := ListPQ)
           sampleGraph "Times Sq" "Canal St" 2 7 32 29 _ sampleGraph).
  - vm_compute. reflexivity.
  - vm_compute. reflexivity.
  - lia.
  - lia.
  - vm_compute. reflexivity.
  - left. vm_compute. eexists. reflexivity.
  - apply (bool_decide_eq_true_1 _). vm_compute. reflexivity.
  - discriminate.
Defined.

(** * Further properties of the graph store *)

Lemma neighbors_addEdge_cases g from to c l u :
  neighbors (addEdge g from to c l) u
  = if decide (u = from) then neighbors g from ++ [mkEdge to c l]
    else neighbors g u.
Proof.
  case_decide as Hu.
  - subst. apply neighbors_addEdge.
  - by apply neighbors_addEdge_ne.
Qed.

(** X1: [addEdge] appends the new edge after the edges already recorded for
    [from], so an edge added twice is stored twice; it leaves the edges of
    every other station as they were, and afterwards [from] has an
    adjacency entry. *)
Theorem addEdge_appends :
  forall (g : Graph) (from to : string) (c : Z) (l : string),
    neighbors (addEdge g from to c l) from = neighbors g from ++ [mkEdge to c l]
    /\ neighbors (addEdge (addEdge g from to c l) from to c l) from
       = neighbors g from ++ [mkEdge to c l; mkEdge to c l]
    /\ (forall u, u <> from -> addEdge g from to c l !! u = g !! u)
    /\ dom (addEdge g from to c l) = {[from]} ∪ dom g.
Proof.
  intros g from to c l. split; [|split; [|split]].
  - apply neighbors_addEdge.
  - rewrite !neighbors_addEdge. by rewrite <- app_assoc.
  - intros u Hu. unfold addEdge. by rewrite lookup_insert_ne.
  - unfold addEdge. by rewrite dom_insert_L.
Qed.

(** X2: edges added at two different stations can be added in either
    order: the resulting adjacency maps are equal. *)
Theorem addEdge_commute :
  forall (g : Graph) (f1 t1 : string) (c1 : Z) (l1 : string)
         (f2 t2 : string) (c2 : Z) (l2 : string),
    f1 <> f2 ->
    addEdge (addEdge g f1 t1 c1 l1) f2 t2 c2 l2
    = addEdge (addEdge g f2 t2 c2 l2) f1 t1 c1 l1.
Proof.
  intros g f1 t1 c1 l1 f2 t2 c2 l2 Hne.
  unfold addEdge at 1 3.
  rewrite (neighbors_addEdge_ne _ f1) by done.
  rewrite (neighbors_addEdge_ne _ f2) by done.
  unfold addEdge. by rewrite insert_insert_ne.
Qed.

Lemma addEdge_commute_witness :
  addEdge (addEdge ∅ "A" "B" 1 "1") "B" "A" 1 "1"
  = addEdge (addEdge ∅ "B" "A" 1 "1") "A" "B" 1 "1".
Proof. apply addEdge_commute. discriminate. Defined.

Lemma elem_of_neighbors_addEdge g from to c l u e :
  e ∈ neighbors (addEdge g from to c l) u
  <-> e ∈ neighbors g u \/ (u = from /\ e = mkEdge to c l).
Proof.
  rewrite neighbors_addEdge_cases. case_decide as Hu.
  - subst. rewrite elem_of_app, list_elem_of_singleton. tauto.
  - tauto.
Qed.

Lemma elem_of_neighbors_addBidirectionalEdge g s1 s2 c l u e :
  e ∈ neighbors (addBidirectionalEdge g s1 s2 c l) u
  <-> e ∈ neighbors g u
      \/ (u = s1 /\ e = mkEdge s2 c l)
      \/ (u = s2 /\ e = mkEdge s1 c l).
Proof.
  unfold addBidirectionalEdge. rewrite !elem_of_neighbors_addEdge. tauto.
Qed.

Lemma lookup_addEdge_is_Some g from to c l u :
  is_Some (addEdge g from to c l !! u) <-> u = from \/ is_Some (g !! u).
Proof.
  unfold addEdge. rewrite lookup_insert. case_decide as Hu.
  - split; [by left|by eexists].
  - split; [by right|]. intros [?|?]; [congruence|done].
Qed.

Lemma addBidirectionalEdge_symmetric g s1 s2 c l :
  symmetric g -> symmetric (addBidirectionalEdge g s1 s2 c l).
Proof.
  intros Hs u e. rewrite !elem_of_neighbors_addBidirectionalEdge.
  intros [He|[[-> ->]|[-> ->]]]; simpl.
  - left. by apply Hs.
  - right. right. done.
  - right. left. done.
Qed.

Lemma addBidirectionalEdge_closed g s1 s2 c l :
  closed g -> closed (addBidirectionalEdge g s1 s2 c l).
Proof.
  intros Hc u e. rewrite elem_of_neighbors_addBidirectionalEdge.
  unfold addBidirectionalEdge. rewrite !lookup_addEdge_is_Some.
  intros [He|[[-> ->]|[-> ->]]]; simpl.
  - right. right. by apply (Hc u).
  - by left.
  - right. by left.
Qed.

(** X3: in a graph built by [addBidirectionalEdge] calls alone, every edge
    has its mirror image of the same cost and line, and every station an
    edge leads to has an adjacency entry of its own. *)
Theorem two_way_symmetric_closed :
  forall g : Graph, two_way g -> symmetric g /\ closed g.
Proof.
  induction 1 as [|g s1 s2 c l Hg [IHs IHc]].
  - split; intros u e He; unfold neighbors in He;
      rewrite lookup_empty in He; by apply elem_of_nil in He.
  - split.
    + by apply addBidirectionalEdge_symmetric.
    + by apply addBidirectionalEdge_closed.
Qed.

Lemma two_way_sampleGraph : two_way sampleGraph.
Proof. unfold sampleGraph, buildSampleGraph. repeat constructor. Qed.

Lemma two_way_symmetric_closed_witness :
  symmetric sampleGraph /\ closed sampleGraph.
Proof. apply two_way_symmetric_closed. exact two_way_sampleGraph. Defined.

Lemma all_edges_neighbors g e :
  In e (all_edges g) <-> exists u, e ∈ neighbors g u.
Proof.
  split.
  - unfold all_edges. intros ([u es] & Hu & He)%in_flat_map.
    apply list_elem_of_In, elem_of_map_to_list in Hu. simpl in He.
    exists u. unfold neighbors. rewrite Hu. simpl. by apply list_elem_of_In.
  - intros [u Hu]. by apply neighbors_all_edges with u.
Qed.

Lemma forallb_all_edges (f : Edge -> bool) g :
  forallb f (all_edges g) = true
  <-> forall u e, e ∈ neighbors g u -> f e = true.
Proof.
  rewrite forallb_forall. split.
  - intros H u e He. apply H, all_edges_neighbors. by exists u.
  - intros H e [u He]%all_edges_neighbors. by apply (H u).
Qed.

Lemma forallb_all_edges_addEdge (f : Edge -> bool) g from to c l :
  forallb f (all_edges (addEdge g from to c l))
  = forallb f (all_edges g) && f (mkEdge to c l).
Proof.
  apply eq_true_iff_eq. rewrite andb_true_iff, !forallb_all_edges. split.
  - intros H. split.
    + intros u e He. apply (H u), elem_of_neighbors_addEdge. by left.
    + apply (H from), elem_of_neighbors_addEdge. by right.
  - intros [H1 H2] u e [He|[-> ->]]%elem_of_neighbors_addEdge; [by apply (H1 u)|done].
Qed.

(** X4: [addEdge] keeps a graph within the preconditions of the search
    exactly when the new edge is: the costs stay within [[0, W]] iff they
    were and the new cost is, and the labels stay non-empty iff they were
    and the new label is. *)
Theorem addEdge_preconditions :
  forall (W : Z) (g : Graph) (from to : string) (c : Z) (l : string),
    costs_within W (addEdge g from to c l)
    = costs_within W g && ((0 <=? c) && (c <=? W))
    /\ lines_named (addEdge g from to c l)
       = lines_named g && negb (String.eqb l "").
Proof.
  intros W g from to c l. unfold costs_within, lines_named.
  by rewrite !forallb_all_edges_addEdge.
Qed.

(** * Further properties of [dijkstra] *)

Lemma reconstruct_shape fuel : forall par s cur acc fp,
  reconstruct fuel par s cur acc = Some fp ->
  exists rest, fp = acc ++ rest
    /\ (cur = s -> rest = [])
    /\ (cur <> s -> exists l rest', rest = (cur, l) :: rest').
Proof.
  induction fuel as [|fuel IH]; intros par s cur acc fp Hr; simpl in Hr;
    destruct (String.eqb_spec cur s) as [->|Hne]; simplify_eq.
  - exists []. by rewrite app_nil_r.
  - exists []. by rewrite app_nil_r.
  - destruct (IH _ _ _ _ _ Hr) as (rest & -> & _).
    exists ((cur, snd (parent_at par cur)) :: rest).
    split; [by rewrite <- app_assoc|]. split; [done|]. by eexists _, _.
Qed.

Lemma last_rev_cons {A} (x : A) (l : list A) : last (rev (x :: l)) = Some x.
Proof. simpl. apply last_snoc. Qed.

(** X5: whatever the graph, the stations, the penalty and the queue, a
    result of [dijkstra] with an empty itinerary has cost [-1], and a
    non-empty itinerary starts with the source on the none line and ends
    at the destination.  In particular a result whose cost is not [-1] has
    a first entry, which is what [main] reads. *)
Theorem dijkstra_result_shape {Q : PQueue} :
  forall (fuel : nat) (g : Graph) (s d : string) (p c : Z)
         (it : list (string * string)) (g' : Graph),
    dijkstra fuel g s d p = Some ((c, it), g') ->
    (it = [] -> c = -1)
    /\ (c <> -1 -> it <> [])
    /\ (it <> [] -> head it = Some (s, "") /\ fst <$> last it = Some d).
Proof.
  intros fuel g s d p c it g' Hd. unfold dijkstra in Hd.
  destruct (search fuel d p g (init_state g s)) as [[adj' st]|]; [|done].
  unfold finish in Hd. destruct (dist_at (dist st) d =? INT_MAX).
  { simplify_eq. done. }
  destruct (reconstruct fuel (parent st) s d []) as [fp|] eqn:E; [|done].
  simplify_eq. rewrite rev_app_distr. simpl.
  split; [done|]. split; [done|]. intros _. split; [done|].
  destruct (reconstruct_shape _ _ _ _ _ _ E) as (rest & -> & Heq & Hne).
  simpl. destruct (decide (d = s)) as [->|Hds].
  - by rewrite Heq.
  - destruct (Hne Hds) as (l & rest' & ->).
    change ((s, "") :: rev ((d, l) :: rest')) with ([(s, "")] ++ rev ((d, l) :: rest')).
    rewrite last_app, last_rev_cons. done.
Qed.

Lemma dijkstra_result_shape_witness :
  ([("Times Sq", ""); ("42nd St", "1"); ("Grand Central", "2")] = [] -> 9 = -1)
  /\ (9 <> -1 ->
      [("Times Sq", ""); ("42nd St", "1"); ("Grand Central", "2")] <> [])
  /\ ([("Times Sq", ""); ("42nd St", "1"); ("Grand Central", "2")] <> [] ->
      head [("Times Sq", ""); ("42nd St", "1"); ("Grand Central", "2")]
      = Some ("Times Sq", "")
      /\ fst <$> last [("Times Sq", ""); ("42nd St", "1");
                       ("Grand Central", "2")]
         = Some "Grand Central").
Proof.
  apply (dijkstra_result_shape (Q := ListPQ) 5 sampleGraph "Times Sq"
           "Grand Central" 2 9 _ sampleGraph).
  apply (bool_decide_eq_true_1 _). vm_compute. reflexivity.
Defined.

Lemma adj_index_subseteq (adj : Graph) k : adj ⊆ snd (adj_index adj k).
Proof.
  unfold adj_index. destruct (adj !! k) eqn:E; simpl; [done|].
  by apply insert_subseteq.
Qed.

Lemma search_subseteq {Q : PQueue} fuel :
  forall d p (adj : Graph) (st : SearchState) adj' st',
    search fuel d p adj st = Some (adj', st') -> adj ⊆ adj'.
Proof.
  induction fuel as [|fuel IH]; intros d p adj st adj' st' Hs; [done|].
  simpl in Hs. destruct (pq_pop (queue st)) as [[n q']|]; [|by simplify_eq].
  unfold visit in Hs.
  destruct (dist_at (dist st) (node_station n) <? node_cost n).
  { by apply (IH _ _ _ _ _ _ Hs). }
  destruct (String.eqb (node_station n) d); [by simplify_eq|].
  assert (Ha := adj_index_subseteq adj (node_station n)).
  destruct (adj_index adj (node_station n)) as [es adj1]. simpl in Ha.
  etrans; [exact Ha|]. by apply (IH _ _ _ _ _ _ Hs).
Qed.

(** X6: whatever the query, the adjacency map after a call of [dijkstra]
    holds every entry it held before, unchanged, and any entry the call
    added is empty: a query creates no edge and loses none. *)
Theorem dijkstra_only_adds_empty_entries {Q : PQueue} :
  forall (fuel : nat) (g : Graph) (s d : string) (p : Z)
         (r : Z * list (string * string)) (g' : Graph),
    dijkstra fuel g s d p = Some (r, g') ->
    (forall k es, g !! k = Some es -> g' !! k = Some es)
    /\ (forall k es, g !! k = None -> g' !! k = Some es -> es = [])
    /\ (forall u, neighbors g' u = neighbors g u).
Proof.
  intros fuel g s d p r g' Hd.
  assert (Hn := dijkstra_keeps_edges _ _ _ _ _ _ _ Hd).
  assert (Hsub : g ⊆ g').
  { unfold dijkstra in Hd.
    destruct (search fuel d p g (init_state g s)) as [[adj' st]|] eqn:E; [|done].
    assert (Hs := search_subseteq _ _ _ _ _ _ _ E).
    unfold finish in Hd. destruct (dist_at (dist st) d =? INT_MAX).
    - by simplify_eq.
    - destruct (reconstruct fuel (parent st) s d []); by simplify_eq. }
  split; [|split; [|done]].
  - intros k es Hk. by apply (lookup_weaken g g').
  - intros k es Hk Hk'. specialize (Hn k). unfold neighbors in Hn.
    by rewrite Hk, Hk' in Hn.
Qed.

Lemma dijkstra_only_adds_empty_entries_witness :
  (forall k es, sampleGraph !! k = Some es ->
                <["Nowhere" := []]> sampleGraph !! k = Some es)
  /\ (forall k es, sampleGraph !! k = None ->
                   <["Nowhere" := []]> sampleGraph !! k = Some es -> es = [])
  /\ (forall u, neighbors (<["Nowhere" := []]> sampleGraph) u
                = neighbors sampleGraph u).
Proof.
  apply (dijkstra_only_adds_empty_entries (Q := ListPQ) 2 sampleGraph
           "Nowhere" "Times Sq" 2 (-1, [])).
  apply (bool_decide_eq_true_1 _). vm_compute. reflexivity.
Defined.

(** X7: within the preconditions, a destination that has an adjacency
    entry and that no walk of stored edges reaches from the source gets the
    unreachable result [(-1, [])]. *)
Theorem dijkstra_unreachable {Q : PQueue} {QL : PQueueLaws Q} :
  forall (g : Graph) (source dest : string) (p W : Z) (fuel : nat),
    costs_within W g = true -> 0 <= W -> 0 <= p ->
    (Z.of_nat (size g) + 1) * (W + p) < INT_MAX ->
    is_Some (g !! dest) ->
    (forall es, ~ is_walk g source es dest) ->
    (enough_fuel g source <= fuel)%nat ->
    exists g', dijkstra fuel g source dest p = Some ((-1, []), g').
Proof. intros. by apply unreachable_result with W. Qed.

Lemma dijkstra_unreachable_witness :
  exists g',
    dijkstra (Q := ListPQ) 10 (addBidirectionalEdge (addBidirectionalEdge ∅ "A" "B" 3 "1") "C" "D" 4 "2")
      "A" "C" 2
    = Some ((-1, []), g').
Proof.
  apply (dijkstra_unreachable _ "A" "C" 2 4 10).
  - vm_compute. reflexivity.
  - lia.
  - lia.
  - vm_compute. reflexivity.
  - vm_compute. eexists. reflexivity.
  - assert (Hin : forall es x, (x = "A" \/ x = "B") ->
              ~ is_walk (addBidirectionalEdge
                           (addBidirectionalEdge ∅ "A" "B" 3 "1") "C" "D" 4 "2")
                  x es "C").
    { induction es as [|e es IH]; intros x Hx; simpl.
      - destruct Hx; subst; discriminate.
      - intros [He Hw]. apply (IH (destination e)); [|done].
        apply list_elem_of_In in He.
        destruct Hx; subst; vm_compute in He;
          destruct He as [<-|[]]; simpl; auto. }
    intros es. apply Hin. by left.
  - vm_compute. lia.
Defined.

(** X8: within the preconditions on costs, a query for a destination that
    has no adjacency entry (a station that only appears as the end of
    edges, or does not appear at all) never returns, reachable or not, as
    long as the destination is not the source and the empty name is neither
    the source nor a key of the adjacency map. *)
Theorem dijkstra_destination_without_entry {Q : PQueue} {QL : PQueueLaws Q} :
  forall (g : Graph) (source dest : string) (p W : Z),
    costs_within W g = true -> 0 <= W -> 0 <= p ->
    (Z.of_nat (size g) + 1) * (W + p) < INT_MAX ->
    g !! dest = None -> dest <> source -> source <> "" -> g !! "" = None ->
    forall fuel, dijkstra fuel g source dest p = None.
Proof. intros. by apply absent_destination_never_returns with W. Qed.

Lemma dijkstra_destination_without_entry_witness :
  is_walk (addEdge ∅ "A" "B" 1 "1") "A" [mkEdge "B" 1 "1"] "B"
  /\ forall fuel,
       dijkstra (Q := ListPQ) fuel (addEdge ∅ "A" "B" 1 "1") "A" "B" 2 = None.
Proof.
  split.
  - simpl. split; [|done]. apply list_elem_of_In. vm_compute. tauto.
  - apply (dijkstra_destination_without_entry _ "A" "B" 2 1).
    + vm_compute. reflexivity.
    + lia.
    + lia.
    + vm_compute. reflexivity.
    + vm_compute. reflexivity.
    + discriminate.
    + discriminate.
    + vm_compute. reflexivity.
Defined.

(** ** The search finds a cheapest padded walk *)

Lemma chain_source par s l : chain par s l -> l <> [] -> s ∈ l.
Proof.
  induction 1 as [|u l Hu Hc IH]; intros Hne; [done|].
  destruct l as [|x l].
  - destruct Hu as [->|Hu]; [left|by apply elem_of_nil in Hu].
  - right. by apply IH.
Qed.

Lemma finish_cases fuel s d adj ds par c it adj' :
  finish fuel s d adj ds par = Some ((c, it), adj') ->
  (it = [] /\ c = -1 /\ dist_at ds d = INT_MAX)
  \/ (it <> [] /\ c = dist_at ds d /\ dist_at ds d <> INT_MAX).
Proof.
  unfold finish. destruct (Z.eqb_spec (dist_at ds d) INT_MAX) as [He|Hne].
  - intros ?; simplify_eq. by left.
  - destruct (reconstruct fuel par s d []) as [fp|]; [|done].
    intros ?; simplify_eq. right. split; [|done].
    rewrite rev_app_distr. done.
Qed.

Section Least.
Context {Q : PQueue} {QL : PQueueLaws Q}.
Variables (g : Graph) (source : string) (p W k : Z).
Hypothesis Hcosts : costs_within W g = true.
Hypothesis HW : 0 <= W.
Hypothesis Hp : 0 <= p.
Hypothesis Hbound : (Z.of_nat (size g) + 1) * (W + p) < INT_MAX.
Hypothesis Hk : 0 <= k.
Hypothesis Htransfers : transfers_within k p g = true.

Lemma padded_cost_nonneg es : forall x t,
  is_walk g x es t -> 0 <= padded_cost k es.
Proof.
  induction es as [|e es IH]; intros x t Hw; simpl; [lia|].
  destruct Hw as [He Hw].
  destruct (costs_within_edge _ _ _ _ Hcosts He) as [Hc _].
  specialize (IH _ _ Hw). lia.
Qed.

Lemma transfer_bound e1 u1 e2 u2 :
  e1 ∈ neighbors g u1 -> e2 ∈ neighbors g u2 ->
  transfer_extra (line e1) (line e2) p <= k.
Proof.
  intros H1 H2. unfold transfers_within in Htransfers.
  rewrite forallb_forall in Htransfers.
  specialize (Htransfers e1 (neighbors_all_edges _ _ _ H1)).
  rewrite forallb_forall in Htransfers.
  specialize (Htransfers e2 (neighbors_all_edges _ _ _ H2)). lia.
Qed.

(** A walk that starts at a settled station either ends at a settled
    station or leaves the settled stations at one whose finite distance is
    bounded by the walk. *)
Lemma cross done rest cur (st : SearchState) t :
  inv g source p W done rest st ->
  inv2 g source k done cur [] st ->
  is_Some (dist st !! t) ->
  forall es x acc,
    x ∈ done -> dist_at (dist st) x <= acc -> is_walk g x es t ->
    (t ∈ done)
    \/ (exists v c, (v ∉ done) /\ dist st !! v = Some c /\ c < INT_MAX
                    /\ c <= acc + padded_cost k es).
Proof.
  intros HI HI2 Ht. induction es as [|e es IH]; intros x acc Hx Hacc Hw.
  { simpl in Hw. subst. by left. }
  destruct Hw as [He Hw].
  destruct (costs_within_edge _ _ _ _ Hcosts He) as [Hc0 _].
  destruct (inv2_relaxed _ _ _ _ _ _ _ HI2 x e Hx He) as [Hrel Hfin].
  { intros [_ Hin]. by apply elem_of_nil in Hin. }
  assert (Hpad := padded_cost_nonneg _ _ _ Hw).
  destruct (decide (destination e ∈ done)) as [Hd|Hd].
  - destruct (IH (destination e) (acc + cost e + k) Hd) as [?|(v & c & ?)];
      [lia|done|by left|].
    right. exists v, c. simpl. intuition lia.
  - destruct (dist st !! destination e) as [c|] eqn:Ec.
    + right. exists (destination e), c.
      unfold dist_at in Hrel, Hfin. rewrite Ec in Hrel, Hfin.
      simpl in Hrel, Hfin. split; [done|]. split; [done|]. split; [done|].
      simpl. unfold dist_at in Hacc. lia.
    + exfalso. assert (Hnd : destination e ∉ dom (dist st))
        by (by apply not_elem_of_dom).
      rewrite (inv_dom _ _ _ _ _ _ _ HI) in Hnd.
      assert (Hg : g !! destination e = None).
      { apply not_elem_of_dom. intros Hin. apply Hnd, elem_of_union. by left. }
      destruct es as [|e' es'].
      * simpl in Hw. rewrite Hw in Ec. rewrite Ec in Ht. by destruct Ht.
      * destruct Hw as [He' _]. unfold neighbors in He'. rewrite Hg in He'.
        by apply elem_of_nil in He'.
Qed.

(** The node a pop returns that is not stale is no dearer than any padded
    walk from the source to its station. *)
Lemma pop_least done rest cur (st : SearchState) n q' :
  inv g source p W done rest st ->
  inv2 g source k done cur [] st ->
  pq_pop (queue st) = Some (n, q') ->
  ~ dist_at (dist st) (node_station n) < node_cost n ->
  forall es, is_walk g source es (node_station n) ->
    node_cost n <= padded_cost k es.
Proof.
  intros HI HI2 Hpop Hns es Hw.
  destruct (pq_pop_Some _ _ _ Hpop) as [Hq Hmin].
  assert (Hn : n ∈ pq_elems (queue st)) by (rewrite Hq; left).
  destruct (inv_q_ge _ _ _ _ _ _ _ HI n Hn) as (Hsome & Hge & Hc0 & Hc1).
  assert (Hex : dist_at (dist st) (node_station n) = node_cost n) by lia.
  destruct (inv_q_exact _ _ _ _ _ _ _ HI n Hn Hex) as [_ Hnd].
  assert (Hpad := padded_cost_nonneg _ _ _ Hw).
  assert (Hb : Z.of_nat (length done) * (W + p) < INT_MAX)
    by (eapply done_bound; eauto).
  destruct (decide (node_station n = source)) as [Hs|Hs].
  { rewrite Hs in Hex. unfold dist_at in Hex.
    rewrite (inv_src _ _ _ _ _ _ _ HI) in Hex. simpl in Hex. lia. }
  destruct Hsome as [c Hc].
  assert (c = node_cost n) as -> by (unfold dist_at in Hex; by rewrite Hc in Hex).
  destruct (inv_tree _ _ _ _ _ _ _ HI _ _ Hs Hc) as [Hpar _]; [lia|].
  assert (Hsrc : source ∈ done).
  { apply (chain_source _ _ _ (inv_chain _ _ _ _ _ _ _ HI)).
    intros Heq. rewrite Heq in Hpar. by apply elem_of_nil in Hpar. }
  destruct (cross _ _ _ _ (node_station n) HI HI2 (mk_is_Some _ _ Hc)
              es source 0 Hsrc) as [Hin|(v & c & Hv & Hvc & Hfin & Hle)];
    [|done|done|].
  { unfold dist_at. rewrite (inv_src _ _ _ _ _ _ _ HI). simpl. lia. }
  destruct (inv2_exact _ _ _ _ _ _ _ HI2 v c Hvc Hfin)
    as [Hin|(m & Hm & _ & Hmc)]; [done|].
  rewrite Hq in Hm. apply elem_of_cons in Hm as [->|Hm]; [lia|].
  rewrite Forall_forall in Hmin. specialize (Hmin m Hm). lia.
Qed.
Lemma relax_unwrapped done rest (st : SearchState) n e :
  inv g source p W done rest st ->
  expanding p W done st n ->
  e ∈ neighbors g (node_station n) ->
  0 <= node_cost n + cost e + transfer_extra (node_line n) (line e) p < INT_MAX
  /\ relax n p st e
     = if node_cost n + cost e + transfer_extra (node_line n) (line e) p
          <? dist_at (dist st) (destination e)
       then
         {| dist := <[destination e :=
                        node_cost n + cost e
                        + transfer_extra (node_line n) (line e) p]> (dist st);
            parent := <[destination e := (node_station n, line e)]> (parent st);
            queue := pq_push
                       (mkNode (node_cost n + cost e
                                + transfer_extra (node_line n) (line e) p)
                          (destination e) (line e)) (queue st) |}
       else st.
Proof.
  intros HI HE He.
  destruct (costs_within_edge _ _ _ _ Hcosts He) as [Hc0 Hc1].
  assert (Hx : 0 <= transfer_extra (node_line n) (line e) p <= p).
  { unfold transfer_extra. destruct (_ && _); lia. }
  assert (Hb := done_bound g source p W HW Hp Hbound _ _ _ HI).
  destruct (exp_bound _ _ _ _ _ HE) as [Hn0 Hn1].
  split; [lia|].
  unfold relax. cbv zeta. unfold int_add.
  rewrite (wrap_small (node_cost n + cost e)) by (unfold INT_MIN; lia).
  rewrite wrap_small by (unfold INT_MIN; lia). done.
Qed.

Lemma inv2_init cur :
  inv2 g source k [] cur [] (init_state g source).
Proof.
  constructor.
  - intros v c. simpl. rewrite lookup_insert. case_decide as Hv.
    + intros [= <-] _. right. exists (mkNode 0 source "").
      rewrite pq_elems_push. split; [left|by subst].
    + rewrite lookup_fmap. destruct (g !! v); simpl; [|done].
      intros [= <-]. lia.
  - intros u e Hu. by apply elem_of_nil in Hu.
  - intros u es Hu. by apply elem_of_nil in Hu.
Qed.

(** Dropping a stale node keeps the second invariant. *)
Lemma inv2_stale done cur (st : SearchState) n q' :
  inv2 g source k done cur [] st ->
  pq_elems (queue st) ≡ₚ n :: pq_elems q' ->
  dist_at (dist st) (node_station n) < node_cost n ->
  inv2 g source k done cur []
    {| dist := dist st; parent := parent st; queue := q' |}.
Proof.
  intros HI2 Hq Hstale. destruct HI2. constructor; simpl; try done.
  intros v c Hc Hfin. destruct (inv2_exact0 v c Hc Hfin) as [?|(m & Hm & Hv & Hmc)];
    [by left|right].
  rewrite Hq in Hm. apply elem_of_cons in Hm as [->|Hm]; [|by exists m].
  unfold dist_at in Hstale. rewrite Hv, Hc in Hstale. simpl in Hstale. lia.
Qed.

(** Settling the station of a node that is not stale keeps it, with all
    the edges of that station still to relax. *)
Lemma inv2_settle done rest cur (st : SearchState) n q' :
  inv g source p W done rest st ->
  inv2 g source k done cur [] st ->
  pq_pop (queue st) = Some (n, q') ->
  ~ dist_at (dist st) (node_station n) < node_cost n ->
  inv2 g source k (node_station n :: done) (node_station n)
    (neighbors g (node_station n))
    {| dist := dist st; parent := parent st; queue := q' |}.
Proof.
  intros HI HI2 Hpop Hns.
  assert (Hleast := pop_least _ _ _ _ _ _ HI HI2 Hpop Hns).
  destruct (pq_pop_Some _ _ _ Hpop) as [Hq Hmin].
  assert (Hn : n ∈ pq_elems (queue st)) by (rewrite Hq; left).
  destruct (inv_q_ge _ _ _ _ _ _ _ HI n Hn) as (_ & Hge & _).
  destruct HI2. constructor; simpl.
  - intros v c Hc Hfin.
    destruct (inv2_exact0 v c Hc Hfin) as [?|(m & Hm & Hv & Hmc)].
    { left. by right. }
    rewrite Hq in Hm. apply elem_of_cons in Hm as [->|Hm].
    + left. rewrite Hv. left.
    + right. by exists m.
  - intros u e [->|Hu]%elem_of_cons He Hnot; [by destruct Hnot|].
    apply inv2_relaxed0; [done|done|].
    intros [_ Hin]. by apply elem_of_nil in Hin.
  - intros u es [->|Hu]%elem_of_cons Hw.
    + specialize (Hleast es Hw). lia.
    + by apply inv2_least0.
Qed.

(** Relaxing the next edge of the settled station keeps it. *)
Lemma relax_inv2 done rest (st : SearchState) n e skip :
  inv g source p W done rest st ->
  expanding p W done st n ->
  inv2 g source k done (node_station n) (e :: skip) st ->
  e ∈ neighbors g (node_station n) ->
  transfer_extra (node_line n) (line e) p <= k ->
  inv2 g source k done (node_station n) skip (relax n p st e).
Proof.
  intros HI HE HI2 He Hxk.
  destruct (relax_unwrapped _ _ _ _ _ HI HE He) as [[Hn0 Hn1] ->].
  destruct (costs_within_edge _ _ _ _ Hcosts He) as [Hc0 _].
  assert (Hx0 : 0 <= transfer_extra (node_line n) (line e) p).
  { unfold transfer_extra. destruct (_ && _); lia. }
  assert (Hxd := exp_dist _ _ _ _ _ HE).
  assert (Hxin := exp_done _ _ _ _ _ HE).
  remember (node_cost n + cost e + transfer_extra (node_line n) (line e) p)
    as newCost eqn:HnewCost.
  remember (destination e) as v eqn:Hv.
  assert (Hcase : forall u' e', u' ∈ done -> e' ∈ neighbors g u' ->
            ~ (u' = node_station n /\ e' ∈ skip) ->
            (u' = node_station n /\ e' = e)
            \/ ~ (u' = node_station n /\ e' ∈ e :: skip)).
  { intros u' e' _ _ Hnot.
    destruct (decide (u' = node_station n /\ e' ∈ e :: skip)) as [[Hu Hin]|?];
      [|by right].
    apply elem_of_cons in Hin as [->|Hin]; [by left|].
    by destruct Hnot. }
  destruct (Z.ltb_spec newCost (dist_at (dist st) v)) as [Hlt|Hge].
  - assert (Hvd : v ∉ done).
    { intros Hin. assert (H := exp_le _ _ _ _ _ HE v Hin). lia. }
    assert (Hfd : forall u, u ∈ done ->
              dist_at (<[v := newCost]> (dist st)) u = dist_at (dist st) u).
    { intros u Hu. rewrite dist_at_insert. case_decide; [by subst|done]. }
    destruct HI2. constructor; simpl.
    + intros x c. rewrite lookup_insert. case_decide as Hvx.
      * intros [= <-] _. right. eexists. rewrite pq_elems_push.
        split; [left|]. simpl. by subst.
      * intros Hc Hfin.
        destruct (inv2_exact0 x c Hc Hfin) as [?|(m & Hm & Hmv & Hmc)];
          [by left|right].
        exists m. rewrite pq_elems_push. split; [by right|done].
    + intros u' e' Hu' He' Hnot. rewrite (Hfd u') by done.
      destruct (Hcase u' e' Hu' He' Hnot) as [[-> ->]|Hold].
      * rewrite <- Hv, dist_at_insert, decide_True by done. lia.
      * destruct (inv2_relaxed0 u' e' Hu' He' Hold) as [H1 H2].
        rewrite dist_at_insert. case_decide as Hve; [|done].
        rewrite <- Hve in H1, H2. lia.
    + intros u es Hu Hw. rewrite Hfd by done. by apply inv2_least0.
  - destruct HI2. constructor; try done.
    intros u' e' Hu' He' Hnot.
    destruct (Hcase u' e' Hu' He' Hnot) as [[-> ->]|Hold].
    + rewrite <- Hv. lia.
    + by apply inv2_relaxed0.
Qed.

Lemma fold_relax_inv2 done rest n : forall skip (st : SearchState),
  inv g source p W done rest st ->
  expanding p W done st n ->
  inv2 g source k done (node_station n) skip st ->
  (forall e, e ∈ skip ->
     e ∈ neighbors g (node_station n)
     /\ transfer_extra (node_line n) (line e) p <= k) ->
  inv2 g source k done (node_station n) [] (fold_left (relax n p) skip st).
Proof.
  induction skip as [|e skip IH]; intros st HI HE HI2 Hskip; simpl; [done|].
  destruct (Hskip e) as [He Hxk]; [left|].
  destruct (relax_inv g source p W Hcosts HW Hp Hbound _ _ _ _ e HI HE He)
    as (HI' & HE' & _).
  apply IH; [done|done| |].
  - by apply relax_inv2 with rest.
  - intros x Hx. apply Hskip. by right.
Qed.

(** The node that settles a station arrived on the line of a stored edge,
    or on none: no edge out of the station is charged more than [k]. *)
Lemma settle_transfer done rest (st : SearchState) n :
  inv g source p W done rest st ->
  expanding p W done st n ->
  forall e, e ∈ neighbors g (node_station n) ->
    transfer_extra (node_line n) (line e) p <= k.
Proof.
  intros HI HE e He. rewrite (exp_line _ _ _ _ _ HE).
  destruct (decide (node_station n = source)) as [Hs|Hs].
  { rewrite Hs, (inv_src_par _ _ _ _ _ _ _ HI). simpl.
    rewrite transfer_extra_none. lia. }
  assert (Hin := exp_done _ _ _ _ _ HE).
  assert (Hst : node_station n ∈ stations g source).
  { rewrite <- (inv_perm _ _ _ _ _ _ _ HI). apply elem_of_app. by left. }
  apply elem_of_stations in Hst.
  rewrite <- (inv_dom _ _ _ _ _ _ _ HI) in Hst.
  apply elem_of_dom in Hst as [c Hc].
  assert (Hfin := inv_done_fin _ _ _ _ _ _ _ HI _ Hin).
  unfold dist_at in Hfin. rewrite Hc in Hfin. simpl in Hfin.
  destruct (inv_tree _ _ _ _ _ _ _ HI _ _ Hs Hc Hfin)
    as [_ (e' & He' & _ & Hl & _)].
  rewrite <- Hl. by eapply transfer_bound.
Qed.

(** The state the loop ends in bounds the distance of the destination by
    every padded walk that reaches it. *)
Lemma search_runs_least dest :
  forall fuel done rest cur adj (st : SearchState),
    inv g source p W done rest st ->
    inv2 g source k done cur [] st ->
    (forall u, neighbors adj u = neighbors g u) ->
    (length (pq_elems (queue st)) + degree_sum g rest < fuel)%nat ->
    exists adj' st' done' rest',
      search fuel dest p adj st = Some (adj', st')
      /\ inv g source p W done' rest' st'
      /\ (forall es, is_walk g source es dest ->
            is_Some (dist st' !! dest) ->
            dist_at (dist st') dest < INT_MAX
            /\ dist_at (dist st') dest <= padded_cost k es).
Proof.
  induction fuel as [|fuel IH]; intros done rest cur adj st HI HI2 Hadj Hm;
    [lia|].
  simpl. destruct (pq_pop (queue st)) as [[n q']|] eqn:E.
  - destruct (pq_pop_Some _ _ _ E) as [Hq Hmin].
    assert (Hlen : length (pq_elems (queue st)) = S (length (pq_elems q')))
      by (by rewrite Hq).
    unfold visit.
    destruct (Z.ltb_spec (dist_at (dist st) (node_station n)) (node_cost n))
      as [Hstale|Hfresh].
    + apply IH with done rest cur; [by eapply inv_drop| |done|simpl; lia].
      by apply inv2_stale with n.
    + destruct (String.eqb_spec (node_station n) dest) as [Hd|Hd].
      * eexists _, _, done, rest. split; [done|].
        split; [by eapply inv_drop|]. simpl. intros es Hw _.
        assert (Hn : n ∈ pq_elems (queue st)) by (rewrite Hq; left).
        destruct (inv_q_ge _ _ _ _ _ _ _ HI n Hn) as (_ & Hge & _ & Hc1).
        assert (Hb := done_bound g source p W HW Hp Hbound _ _ _ HI).
        rewrite <- Hd in Hw |- *.
        assert (Hl := pop_least _ _ _ _ _ _ HI HI2 E
                        (proj1 (Z.le_ngt _ _) Hfresh) es Hw).
        lia.
      * destruct (inv_settle g source p W HW Hp Hbound _ _ _ _ _ HI E)
          as (rest' & Hrest & HI' & HE'); [lia|].
        assert (HI2' := inv2_settle _ _ _ _ _ _ HI HI2 E
                          (proj1 (Z.le_ngt _ _) Hfresh)).
        destruct (adj_index_neighbors adj (node_station n)) as [He Ha].
        destruct (adj_index adj (node_station n)) as [es adj'] eqn:Eadj.
        simpl in He, Ha.
        assert (Hes : es = neighbors g (node_station n))
          by (by rewrite <- Hadj, <- He).
        clear He Eadj. subst es.
        destruct (fold_relax_inv g source p W Hcosts HW Hp Hbound
                    _ _ n (neighbors g (node_station n)) _ HI' HE')
          as [HI'' Hl]; [done|].
        apply IH with (node_station n :: done) rest' (node_station n);
          [done| | |].
        -- apply fold_relax_inv2 with rest'; [done|done|done|].
           intros e Hin. split; [done|].
           by apply (settle_transfer _ _ _ _ HI' HE').
        -- intros u. by rewrite Ha.
        -- simpl in Hl. rewrite (degree_sum_perm _ _ _ Hrest) in Hm.
           unfold degree_sum in Hm. simpl in Hm. fold (degree_sum g rest') in Hm.
           lia.
  - eexists _, _, done, rest. split; [done|]. split; [done|].
    intros es Hw Hsome.
    assert (He : pq_elems (queue st) = []) by (by apply pq_pop_None).
    assert (Hall : forall v c, dist st !! v = Some c -> c < INT_MAX -> v ∈ done).
    { intros v c Hc Hfin.
      destruct (inv2_exact _ _ _ _ _ _ _ HI2 v c Hc Hfin)
        as [?|(m & Hin & _)]; [done|].
      rewrite He in Hin. by apply elem_of_nil in Hin. }
    assert (Hsrc : source ∈ done).
    { apply (Hall source 0 (inv_src _ _ _ _ _ _ _ HI)). unfold INT_MAX. lia. }
    destruct (cross _ _ _ _ dest HI HI2 Hsome es source 0 Hsrc)
      as [Hin|(v & c & Hv & Hvc & Hfin & _)]; [|done| |].
    + unfold dist_at. rewrite (inv_src _ _ _ _ _ _ _ HI). simpl. lia.
    + split; [by apply (inv_done_fin _ _ _ _ _ _ _ HI)|].
      by apply (inv2_least _ _ _ _ _ _ _ HI2).
    + by destruct Hv; apply (Hall v c).
Qed.

(** Within the preconditions, a destination that a walk reaches gets a
    route, whose cost is at most that of the walk padded by [k]. *)
Lemma dijkstra_least dest fuel es :
  is_Some (g !! dest) \/ dest = source ->
  is_walk g source es dest ->
  (enough_fuel g source <= fuel)%nat ->
  exists c it g' es',
    dijkstra fuel g source dest p = Some ((c, it), g')
    /\ is_walk g source es' dest
    /\ it = itinerary_of source es'
    /\ c = ride_cost p "" es'
    /\ c <= padded_cost k es.
Proof.
  intros Hdest Hw Hf. unfold enough_fuel in Hf. unfold dijkstra.
  destruct (search_runs_least dest fuel [] (stations g source) source g
              (init_state g source) (inv_init g source p W)
              (inv2_init source) (fun u => eq_refl))
    as (adj' & st' & done' & rest' & Hs & HI & Hgoal).
  { simpl. rewrite pq_elems_push, pq_elems_empty. simpl. lia. }
  rewrite Hs.
  destruct (finish_runs g source p W dest done' rest' st' adj' fuel HI Hdest)
    as (c & it & Hfin & Hres); [lia|].
  assert (Hsome : is_Some (dist st' !! dest)).
  { apply elem_of_dom. rewrite (inv_dom _ _ _ _ _ _ _ HI).
    rewrite elem_of_union, elem_of_singleton, elem_of_dom. tauto. }
  destruct (Hgoal es Hw Hsome) as [Hlt Hle].
  destruct (finish_cases _ _ _ _ _ _ _ _ _ Hfin)
    as [(_ & _ & Hinf)|(Hne & Hc & _)]; [lia|].
  destruct Hres as [[_ ->]|(es' & Hw' & -> & Hrc)]; [done|].
  exists c, (itinerary_of source es'), adj', es'.
  rewrite Hfin. repeat split; try done. lia.
Qed.
End Least.

Lemma transfer_extra_le l1 l2 p : 0 <= p -> 0 <= transfer_extra l1 l2 p <= p.
Proof. intros Hp. unfold transfer_extra. destruct (_ && _); lia. Qed.

Lemma transfers_within_penalty p g : 0 <= p -> transfers_within p p g = true.
Proof.
  intros Hp. unfold transfers_within.
  apply forallb_forall. intros e1 _. apply forallb_forall. intros e2 _.
  apply Z.leb_le. by apply transfer_extra_le.
Qed.

Lemma transfers_within_single_line L p g :
  single_line L g = true -> transfers_within 0 p g = true.
Proof.
  unfold single_line, transfers_within. rewrite forallb_forall. intros HL.
  apply forallb_forall. intros e1 H1. apply forallb_forall. intros e2 H2.
  apply Z.leb_le. apply HL, String.eqb_eq in H1, H2.
  rewrite H1, H2. unfold transfer_extra. rewrite String.eqb_refl.
  rewrite andb_false_r. lia.
Qed.

Lemma ride_cost_nonneg W g p es : forall x l t,
  costs_within W g = true -> 0 <= p -> is_walk g x es t ->
  0 <= ride_cost p l es.
Proof.
  induction es as [|e es IH]; intros x l t Hc Hp Hw; simpl; [lia|].
  destruct Hw as [He Hw].
  destruct (costs_within_edge _ _ _ _ Hc He) as [H0 _].
  assert (Hx := transfer_extra_le l (line e) p Hp).
  specialize (IH _ (line e) _ Hc Hp Hw). lia.
Qed.

Lemma ride_cost_zero l es : ride_cost 0 l es = padded_cost 0 es.
Proof.
  revert l. induction es as [|e es IH]; intros l; simpl; [done|].
  rewrite IH. unfold transfer_extra. destruct (_ && _); lia.
Qed.

Lemma route_cost_zero prev es : route_cost 0 prev es = padded_cost 0 es.
Proof.
  revert prev. induction es as [|e es IH]; intros prev; simpl; [done|].
  rewrite IH. destruct prev as [l|]; [|lia].
  destruct (String.eqb l (line e)); lia.
Qed.

Lemma ride_cost_single_line L g p es : forall x t l,
  single_line L g = true -> is_walk g x es t -> l = "" \/ l = L ->
  ride_cost p l es = padded_cost 0 es.
Proof.
  induction es as [|e es IH]; intros x t l HL Hw Hl; simpl; [done|].
  destruct Hw as [He Hw].
  assert (Hline : line e = L).
  { unfold single_line in HL. rewrite forallb_forall in HL.
    apply String.eqb_eq, HL. by apply neighbors_all_edges with x. }
  rewrite (IH _ _ (line e) HL Hw) by (by right).
  rewrite Hline. destruct Hl as [-> | ->].
  - rewrite transfer_extra_none. lia.
  - unfold transfer_extra. rewrite String.eqb_refl, andb_false_r. lia.
Qed.

Lemma route_cost_single_line L g p es : forall x t prev,
  single_line L g = true -> is_walk g x es t -> prev = None \/ prev = Some L ->
  route_cost p prev es = padded_cost 0 es.
Proof.
  induction es as [|e es IH]; intros x t prev HL Hw Hprev; simpl; [done|].
  destruct Hw as [He Hw].
  assert (Hline : line e = L).
  { unfold single_line in HL. rewrite forallb_forall in HL.
    apply String.eqb_eq, HL. by apply neighbors_all_edges with x. }
  rewrite (IH _ _ (Some (line e)) HL Hw) by (right; by rewrite Hline).
  rewrite Hline. destruct Hprev as [-> | ->]; [lia|].
  rewrite String.eqb_refl. lia.
Qed.

(** X9: within the preconditions, whenever some walk of stored edges leads
    from the source to a destination that has an adjacency entry,
    [dijkstra] returns a route: a non-empty itinerary of such a walk, with
    a cost that is not negative, so that the cost [-1] can only mean
    unreachable. *)
Theorem dijkstra_finds_route {Q : PQueue} {QL : PQueueLaws Q} :
  forall (g : Graph) (source dest : string) (p W : Z) (fuel : nat)
         (es : list Edge),
    costs_within W g = true -> 0 <= W -> 0 <= p ->
    (Z.of_nat (size g) + 1) * (W + p) < INT_MAX ->
    is_Some (g !! dest) \/ dest = source ->
    is_walk g source es dest ->
    (enough_fuel g source <= fuel)%nat ->
    exists c it g' es',
      dijkstra fuel g source dest p = Some ((c, it), g')
      /\ it <> [] /\ 0 <= c
      /\ is_walk g source es' dest /\ it = itinerary_of source es'.
Proof.
  intros g source dest p W fuel es Hc HW Hp Hb Hd Hw Hf.
  destruct (dijkstra_least g source p W p Hc HW Hp Hb Hp
              (transfers_within_penalty p g Hp) dest fuel es Hd Hw Hf)
    as (c & it & g' & es' & Hr & Hw' & -> & -> & _).
  exists (ride_cost p "" es'), (itinerary_of source es'), g', es'.
  split; [done|]. split; [done|]. split; [|done].
  by apply ride_cost_nonneg with W g source dest.
Qed.

Lemma dijkstra_finds_route_witness :
  exists c it g' es',
    dijkstra (Q := ListPQ) 32 sampleGraph "Times Sq" "Grand Central" 2
    = Some ((c, it), g')
    /\ it <> [] /\ 0 <= c
    /\ is_walk sampleGraph "Times Sq" es' "Grand Central"
    /\ it = itinerary_of "Times Sq" es'.
Proof.
  apply (dijkstra_finds_route sampleGraph "Times Sq" "Grand Central" 2 7 32
           [mkEdge "42nd St" 4 "1"; mkEdge "Grand Central" 3 "2"]).
  - vm_compute. reflexivity.
  - lia.
  - lia.
  - vm_compute. reflexivity.
  - left. vm_compute. eexists. reflexivity.
  - simpl. repeat split; apply list_elem_of_In; vm_compute; tauto.
  - vm_compute. lia.
Defined.

(** X10: within the preconditions, the returned cost is at most the cost
    of any walk from the source to the destination when that walk is
    charged the transfer penalty at every edge: what the per-station table
    can lose against the cheapest route is bounded by the transfers. *)
Theorem dijkstra_cost_upper_bound {Q : PQueue} {QL : PQueueLaws Q} :
  forall (g : Graph) (source dest : string) (p W : Z) (fuel : nat)
         (es : list Edge) (c : Z) (it : list (string * string)) (g' : Graph),
    costs_within W g = true -> 0 <= W -> 0 <= p ->
    (Z.of_nat (size g) + 1) * (W + p) < INT_MAX ->
    is_Some (g !! dest) \/ dest = source ->
    is_walk g source es dest ->
    dijkstra fuel g source dest p = Some ((c, it), g') ->
    it <> [] /\ c <= padded_cost p es.
Proof.
  intros g source dest p W fuel es c it g' Hc HW Hp Hb Hd Hw Hrun.
  destruct (dijkstra_least g source p W p Hc HW Hp Hb Hp
              (transfers_within_penalty p g Hp) dest (enough_fuel g source)
              es Hd Hw (le_n _))
    as (c0 & it0 & g0 & es' & Hr & Hw' & -> & -> & Hle).
  assert (Heq := dijkstra_fuel_agree _ _ _ _ _ _ _ _ Hrun Hr).
  by simplify_eq.
Qed.

Lemma dijkstra_cost_upper_bound_witness :
  [("S", ""); ("M", "A"); ("D", "B")] <> []
  /\ 7 <= padded_cost 5 [mkEdge "M" 2 "B"; mkEdge "D" 1 "B"].
Proof.
  apply (dijkstra_cost_upper_bound (Q := ListPQ) twoLineGraph "S" "D" 5 2 4
           [mkEdge "M" 2 "B"; mkEdge "D" 1 "B"] 7 _ twoLineGraph).
  - vm_compute. reflexivity.
  - lia.
  - lia.
  - vm_compute. reflexivity.
  - left. vm_compute. eexists. reflexivity.
  - simpl. repeat split; apply list_elem_of_In; vm_compute; tauto.
  - apply (bool_decide_eq_true_1 _). vm_compute. reflexivity.
Defined.

(** X11: with transfer penalty [0] and within the preconditions on costs,
    the cost [dijkstra] returns for a reachable destination is the
    minimum: it is the route cost of a walk from the source to the
    destination, and no such walk has a smaller route cost. *)
Theorem dijkstra_minimal_without_penalty {Q : PQueue} {QL : PQueueLaws Q} :
  forall (g : Graph) (source dest : string) (W : Z) (fuel : nat)
         (es0 : list Edge),
    costs_within W g = true -> 0 <= W ->
    (Z.of_nat (size g) + 1) * W < INT_MAX ->
    is_Some (g !! dest) \/ dest = source ->
    is_walk g source es0 dest ->
    (enough_fuel g source <= fuel)%nat ->
    exists c it g' es',
      dijkstra fuel g source dest 0 = Some ((c, it), g')
      /\ is_walk g source es' dest
      /\ it = itinerary_of source es'
      /\ c = route_cost 0 None es'
      /\ forall es, is_walk g source es dest -> c <= route_cost 0 None es.
Proof.
  intros g source dest W fuel es0 Hc HW Hb Hd Hw0 Hf.
  assert (Hb' : (Z.of_nat (size g) + 1) * (W + 0) < INT_MAX)
    by (by rewrite Z.add_0_r).
  destruct (dijkstra_least g source 0 W 0 Hc HW (Z.le_refl 0) Hb' (Z.le_refl 0)
              (transfers_within_penalty 0 g (Z.le_refl 0)) dest fuel es0
              Hd Hw0 Hf)
    as (c & it & g' & es' & Hr & Hw' & -> & -> & _).
  eexists _, _, g', es'. split; [exact Hr|]. split; [done|]. split; [done|].
  split; [by rewrite ride_cost_zero, route_cost_zero|].
  intros es Hw.
  destruct (dijkstra_least g source 0 W 0 Hc HW (Z.le_refl 0) Hb' (Z.le_refl 0)
              (transfers_within_penalty 0 g (Z.le_refl 0)) dest fuel es
              Hd Hw Hf)
    as (c1 & it1 & g1 & es1 & Hr1 & _ & _ & _ & Hle).
  rewrite Hr in Hr1. injection Hr1 as Hceq _ _.
  rewrite route_cost_zero. lia.
Qed.

Lemma dijkstra_minimal_without_penalty_witness :
  exists c it g' es',
    dijkstra (Q := ListPQ) 32 sampleGraph "Times Sq" "Canal St" 0
    = Some ((c, it), g')
    /\ is_walk sampleGraph "Times Sq" es' "Canal St"
    /\ it = itinerary_of "Times Sq" es'
    /\ c = route_cost 0 None es'
    /\ forall es, is_walk sampleGraph "Times Sq" es "Canal St" ->
                  c <= route_cost 0 None es.
Proof.
  apply (dijkstra_minimal_without_penalty sampleGraph "Times Sq" "Canal St"
           7 32
           [mkEdge "42nd St" 4 "1"; mkEdge "34th St" 5 "1";
            mkEdge "Union Sq" 4 "3"; mkEdge "Houston St" 7 "3";
            mkEdge "Canal St" 5 "3"]).
  - vm_compute. reflexivity.
  - lia.
  - vm_compute. reflexivity.
  - left. vm_compute. eexists. reflexivity.
  - simpl. repeat split; apply list_elem_of_In; vm_compute; tauto.
  - vm_compute. lia.
Defined.

(** X12: on a network all of whose edges run on one line, and within the
    preconditions, the cost [dijkstra] returns for a reachable destination
    is the minimum route cost, whatever the transfer penalty. *)
Theorem dijkstra_minimal_on_one_line {Q : PQueue} {QL : PQueueLaws Q} :
  forall (g : Graph) (L source dest : string) (p W : Z) (fuel : nat)
         (es0 : list Edge),
    single_line L g = true ->
    costs_within W g = true -> 0 <= W -> 0 <= p ->
    (Z.of_nat (size g) + 1) * (W + p) < INT_MAX ->
    is_Some (g !! dest) \/ dest = source ->
    is_walk g source es0 dest ->
    (enough_fuel g source <= fuel)%nat ->
    exists c it g' es',
      dijkstra fuel g source dest p = Some ((c, it), g')
      /\ is_walk g source es' dest
      /\ it = itinerary_of source es'
      /\ c = route_cost p None es'
      /\ forall es, is_walk g source es dest -> c <= route_cost p None es.
Proof.
  intros g L source dest p W fuel es0 HL Hc HW Hp Hb Hd Hw0 Hf.
  assert (Ht := transfers_within_single_line L p g HL).
  destruct (dijkstra_least g source p W 0 Hc HW Hp Hb (Z.le_refl 0) Ht
              dest fuel es0 Hd Hw0 Hf)
    as (c & it & g' & es' & Hr & Hw' & -> & -> & _).
  eexists _, _, g', es'. split; [exact Hr|]. split; [done|]. split; [done|].
  split.
  { rewrite (ride_cost_single_line L g p es' _ _ "" HL Hw') by (by left).
    by rewrite (route_cost_single_line L g p es' _ _ None HL Hw') by (by left). }
  intros es Hw.
  destruct (dijkstra_least g source p W 0 Hc HW Hp Hb (Z.le_refl 0) Ht
              dest fuel es Hd Hw Hf)
    as (c1 & it1 & g1 & es1 & Hr1 & _ & _ & _ & Hle).
  rewrite Hr in Hr1. injection Hr1 as Hceq _ _.
  rewrite (route_cost_single_line L g p es _ _ None HL Hw) by (by left).
  lia.
Qed.

Lemma dijkstra_minimal_on_one_line_witness :
  exists c it g' es',
    dijkstra (Q := ListPQ) 20 oneLineGraph "A" "C" 5 = Some ((c, it), g')
    /\ is_walk oneLineGraph "A" es' "C"
    /\ it = itinerary_of "A" es'
    /\ c = route_cost 5 None es'
    /\ forall es, is_walk oneLineGraph "A" es "C" -> c <= route_cost 5 None es.
Proof.
  apply (dijkstra_minimal_on_one_line oneLineGraph "1" "A" "C" 5 9 20
           [mkEdge "C" 9 "1"]).
  - vm_compute. reflexivity.
  - vm_compute. reflexivity.
  - lia.
  - lia.
  - vm_compute. reflexivity.
  - left. vm_compute. eexists. reflexivity.
  - simpl. repeat split; apply list_elem_of_In; vm_compute; tauto.
  - vm_compute. lia.
Defined.

(** * Properties of the presentation code *)

(** X13: [getColor] gives the four lines of the network four different
    colours, none of them the reset code, and gives every other label the
    reset code. *)
Theorem getColor_distinguishes :
  forall l1 l2 : string,
    (getColor l1 = reset <-> ~ In l1 ["1"; "2"; "3"; "Interchange"])
    /\ (getColor l1 = getColor l2 ->
        l1 = l2 \/ (getColor l1 = reset /\ getColor l2 = reset)).
Proof.
  intros l1 l2. unfold getColor, reset. simpl.
  destruct (String.eqb_spec l1 "1"), (String.eqb_spec l1 "2"),
    (String.eqb_spec l1 "3"), (String.eqb_spec l1 "Interchange"),
    (String.eqb_spec l2 "1"), (String.eqb_spec l2 "2"),
    (String.eqb_spec l2 "3"), (String.eqb_spec l2 "Interchange");
    subst; try discriminate;
    (split; [split; [try discriminate; intuition congruence
                    |intuition congruence]
            |try discriminate; intuition congruence]).
Qed.

(** ** The order of station names *)

Lemma string_leb_compare a b :
  String.leb a b = true <-> String.compare a b <> Gt.
Proof. unfold String.leb. destruct (String.compare a b); split; congruence. Qed.

#[export] Instance string_le_total : Total string_le.
Proof. intros a b. apply String.leb_total. Qed.

#[export] Instance string_le_antisymm : AntiSymm (=) string_le.
Proof. intros a b Hab Hba. by apply String.leb_antisym. Qed.

#[export] Instance string_le_trans : Transitive string_le.
Proof.
  intros a b c. unfold string_le. rewrite !string_leb_compare.
  intros Hab Hbc.
  destruct (String.compare a b) eqn:Eab; [| |done].
  { apply String.compare_eq_iff in Eab. by subst. }
  destruct (String.compare b c) eqn:Ebc; [| |done].
  { apply String.compare_eq_iff in Ebc. subst. by rewrite Eab. }
  apply OrderedTypeEx.String_as_OT.cmp_lt in Eab, Ebc.
  assert (Hac := OrderedTypeEx.String_as_OT.lt_trans _ _ _ Eab Ebc).
  apply OrderedTypeEx.String_as_OT.cmp_lt in Hac.
  unfold OrderedTypeEx.String_as_OT.cmp in Hac. by rewrite Hac.
Qed.

Lemma NoDup_perm {A} (l k : list A) : l ≡ₚ k -> NoDup k -> NoDup l.
Proof. intros H. by rewrite H. Qed.

Lemma stationList_perm g : stationList g ≡ₚ elements (dom g).
Proof. apply merge_sort_Permutation. Qed.

Lemma elem_of_stationList g x : x ∈ stationList g <-> is_Some (g !! x).
Proof. by rewrite stationList_perm, elem_of_elements, elem_of_dom. Qed.

(** X14: the numbered station list does not depend on the order in which
    the adjacency map is iterated nor on the sorting algorithm: any sorted
    arrangement of the keys is [stationList g].  It is sorted, lists every
    station that has an adjacency entry exactly once and nothing else, and
    has as many entries as the map. *)
Theorem stationList_any_order :
  forall (g : Graph) (sort : list string -> list string) (keys : list string),
    (forall l, sort l ≡ₚ l) ->
    (forall l, Sorted string_le (sort l)) ->
    keys ≡ₚ elements (dom g) ->
    sort keys = stationList g
    /\ Sorted string_le (stationList g)
    /\ NoDup (stationList g)
    /\ (forall x, x ∈ stationList g <-> is_Some (g !! x))
    /\ length (stationList g) = size g.
Proof.
  intros g sort keys Hperm Hsorted Hkeys.
  split; [|split; [|split; [|split]]].
  - apply (Sorted_unique string_le); [done|apply Sorted_merge_sort; apply _|].
    by rewrite Hperm, Hkeys, stationList_perm.
  - apply Sorted_merge_sort. apply _.
  - apply NoDup_perm with (elements (dom g));
      [apply stationList_perm|apply NoDup_elements].
  - apply elem_of_stationList.
  - rewrite (Permutation_length (stationList_perm g)).
    rewrite <- (size_dom g). done.
Qed.

Lemma stationList_any_order_witness :
  merge_sort string_le (rev (elements (dom sampleGraph))) = stationList sampleGraph
  /\ Sorted string_le (stationList sampleGraph)
  /\ NoDup (stationList sampleGraph)
  /\ (forall x, x ∈ stationList sampleGraph <-> is_Some (sampleGraph !! x))
  /\ length (stationList sampleGraph) = size sampleGraph.
Proof.
  apply (stationList_any_order sampleGraph (merge_sort string_le)
           (rev (elements (dom sampleGraph)))).
  - intros l. apply merge_sort_Permutation.
  - intros l. apply Sorted_merge_sort. apply _.
  - symmetry. apply Permutation_rev.
Defined.

(** ** The validation of the indices *)

(** X15: for indices that are [int]s, [main] rejects the pair exactly when
    one of them lies outside [1 .. stationList.size()]; otherwise both
    reads of the vector are in bounds and yield the stations at positions
    [srcIndex - 1] and [destIndex - 1].  No pair of indices leads to a
    read outside the vector. *)
Theorem selectStations_validates :
  forall (l : list string) (srcIndex destIndex : Z),
    INT_MIN <= srcIndex <= INT_MAX -> INT_MIN <= destIndex <= INT_MAX ->
    (selectStations l srcIndex destIndex = Invalid
     <-> ~ (1 <= srcIndex <= Z.of_nat (length l)
            /\ 1 <= destIndex <= Z.of_nat (length l)))
    /\ selectStations l srcIndex destIndex <> OutOfBounds
    /\ (forall src dest,
          selectStations l srcIndex destIndex = Selected src dest ->
          l !! Z.to_nat (srcIndex - 1) = Some src
          /\ l !! Z.to_nat (destIndex - 1) = Some dest).
Proof.
  intros l s d Hs Hd. unfold selectStations, INT_MIN, INT_MAX in *.
  assert (Hts : 1 <= s -> to_size_t s = s).
  { intros H. unfold to_size_t. apply Z.mod_small. lia. }
  assert (Htd : 1 <= d -> to_size_t d = d).
  { intros H. unfold to_size_t. apply Z.mod_small. lia. }
  destruct (Z.ltb_spec s 1) as [Hs1|Hs1]; simpl.
  { split; [split; [lia|done]|]. split; [done|]. intros; discriminate. }
  rewrite (Hts Hs1).
  destruct (Z.ltb_spec (Z.of_nat (length l)) s) as [Hs2|Hs2]; simpl.
  { split; [split; [lia|done]|]. split; [done|]. intros; discriminate. }
  destruct (Z.ltb_spec d 1) as [Hd1|Hd1]; simpl.
  { split; [split; [lia|done]|]. split; [done|]. intros; discriminate. }
  rewrite (Htd Hd1).
  destruct (Z.ltb_spec (Z.of_nat (length l)) d) as [Hd2|Hd2]; simpl.
  { split; [split; [lia|done]|]. split; [done|]. intros; discriminate. }
  destruct (lookup_lt_is_Some_2 l (Z.to_nat (s - 1))) as [a Ha]; [lia|].
  destruct (lookup_lt_is_Some_2 l (Z.to_nat (d - 1))) as [b Hb]; [lia|].
  rewrite Ha, Hb. split.
  - split; [discriminate|]. intros H. exfalso. apply H. lia.
  - split; [discriminate|]. intros src dest [= <- <-]. done.
Qed.

Lemma selectStations_validates_witness :
  (selectStations (stationList sampleGraph) 10 3 = Invalid
   <-> ~ (1 <= 10 <= Z.of_nat (length (stationList sampleGraph))
          /\ 1 <= 3 <= Z.of_nat (length (stationList sampleGraph))))
  /\ selectStations (stationList sampleGraph) 10 3 <> OutOfBounds
  /\ (forall src dest,
        selectStations (stationList sampleGraph) 10 3 = Selected src dest ->
        stationList sampleGraph !! Z.to_nat (10 - 1) = Some src
        /\ stationList sampleGraph !! Z.to_nat (3 - 1) = Some dest).
Proof.
  apply (selectStations_validates (stationList sampleGraph) 10 3);
    unfold INT_MIN, INT_MAX; lia.
Defined.

Lemma selectStations_Selected l s d src dest :
  selectStations l s d = Selected src dest -> src ∈ l /\ dest ∈ l.
Proof.
  unfold selectStations. destruct (_ || _); [done|].
  destruct (l !! Z.to_nat (s - 1)) as [a|] eqn:Ea; [|done].
  destruct (l !! Z.to_nat (d - 1)) as [b|] eqn:Eb; [|done].
  intros [= <- <-]. split; by eapply list_elem_of_lookup_2.
Qed.

(** X16: the stations [main] selects have adjacency entries, so on a graph
    within the preconditions the query it then issues returns: the
    validation of the indices keeps [main] clear of the destinations for
    which [dijkstra] does not return. *)
Theorem main_query_returns {Q : PQueue} {QL : PQueueLaws Q} :
  forall (g : Graph) (p W srcIndex destIndex : Z) (src dest : string),
    costs_within W g = true -> 0 <= W -> 0 <= p ->
    (Z.of_nat (size g) + 1) * (W + p) < INT_MAX ->
    selectStations (stationList g) srcIndex destIndex = Selected src dest ->
    is_Some (g !! src) /\ is_Some (g !! dest)
    /\ exists r, forall fuel, (enough_fuel g src <= fuel)%nat ->
         dijkstra fuel g src dest p = Some r.
Proof.
  intros g p W s d src dest Hc HW Hp Hb Hsel.
  destruct (selectStations_Selected _ _ _ _ _ Hsel) as [Hsrc Hdest].
  apply elem_of_stationList in Hsrc, Hdest.
  split; [done|]. split; [done|].
  destruct (dijkstra_runs g src p W Hc HW Hp Hb dest (enough_fuel g src)
              (or_introl Hdest) (le_n _))
    as (c & it & g' & Hr & _).
  exists ((c, it), g'). intros fuel Hf.
  by apply dijkstra_fuel_mono with (enough_fuel g src).
Qed.

Lemma main_query_returns_witness :
  is_Some (sampleGraph !! "Wall St") /\ is_Some (sampleGraph !! "42nd St")
  /\ exists r, forall fuel, (enough_fuel sampleGraph "Wall St" <= fuel)%nat ->
       dijkstra (Q := ListPQ) fuel sampleGraph "Wall St" "42nd St" 2 = Some r.
Proof.
  apply (main_query_returns sampleGraph 2 7 10 3).
  - vm_compute. reflexivity.
  - lia.
  - lia.
  - vm_compute. reflexivity.
  - vm_compute. reflexivity.
Defined.

(** ** The route instructions *)


Lemma instructionLoop_transfers p es : forall cur prev,
  ride_cost p cur es
  = padded_cost 0 es
    + p * Z.of_nat
            (length (List.filter is_transfer
                       (instructionLoop cur prev
                          (map (fun e => (destination e, line e)) es)))).
Proof.
  induction es as [|e es IH]; intros cur prev; simpl; [lia|].
  unfold transfer_extra. rewrite (String.eqb_sym (line e) cur).
  destruct (String.eqb cur (line e)) eqn:E1; simpl.
  - rewrite andb_false_r. apply String.eqb_eq in E1. subst cur.
    rewrite (IH (line e) (destination e)). lia.
  - rewrite andb_true_r. destruct (String.eqb cur "") eqn:E2; simpl.
    + rewrite (IH (line e) (destination e)). lia.
    + rewrite (IH (line e) (destination e)). lia.
Qed.


(** X18: within the preconditions, the cost [dijkstra] returns with a
    route is the sum of the costs of the edges of the route plus the
    transfer penalty times the number of transfers that [main] announces
    for the returned itinerary. *)
Theorem announced_transfers_account_for_cost
    {Q : PQueue} {QL : PQueueLaws Q} :
  forall (g : Graph) (source dest : string) (p W : Z) (fuel : nat)
         (c : Z) (it : list (string * string)) (g' : Graph),
    costs_within W g = true -> 0 <= W -> 0 <= p ->
    (Z.of_nat (size g) + 1) * (W + p) < INT_MAX ->
    is_Some (g !! dest) \/ dest = source ->
    dijkstra fuel g source dest p = Some ((c, it), g') ->
    it <> [] ->
    exists es, is_walk g source es dest
      /\ it = itinerary_of source es
      /\ c = padded_cost 0 es
             + p * Z.of_nat (length (List.filter is_transfer
                                       (routeInstructions it))).
Proof.
  intros g source dest p W fuel c it g' Hc HW Hp Hb Hd Hrun Hit.
  destruct (dijkstra_runs g source p W Hc HW Hp Hb dest
              (enough_fuel g source) Hd (le_n _))
    as (c0 & it0 & g0 & Hr & _ & Hres).
  assert (Heq := dijkstra_fuel_agree _ _ _ _ _ _ _ _ Hrun Hr).
  simplify_eq. destruct Hres as [[_ ->]|(es & Hw & -> & ->)]; [done|].
  exists es. split; [done|]. split; [done|].
  unfold itinerary_of. simpl.
  apply (instructionLoop_transfers p es "" source).
Qed.

Lemma announced_transfers_account_for_cost_witness :
  exists es, is_walk sampleGraph "Times Sq" es "Grand Central"
    /\ [("Times Sq", ""); ("42nd St", "1"); ("Grand Central", "2")]
       = itinerary_of "Times Sq" es
    /\ 9 = padded_cost 0 es
           + 2 * Z.of_nat
                   (length (List.filter is_transfer
                              (routeInstructions
                                 [("Times Sq", ""); ("42nd St", "1");
                                  ("Grand Central", "2")]))).
Proof.
  apply (announced_transfers_account_for_cost (Q := ListPQ) sampleGraph
           "Times Sq" "Grand Central" 2 7 5 9 _ sampleGraph).
  - vm_compute. reflexivity.
  - lia.
  - lia.
  - vm_compute. reflexivity.
  - left. vm_compute. eexists. reflexivity.
  - apply (bool_decide_eq_true_1 _). vm_compute. reflexivity.
  - discriminate.
Defined.

(** * How queries depend on their surroundings *)

(** X19: within the preconditions, and for a destination that has an
    adjacency entry or is the source, the cost [dijkstra] returns is [-1]
    exactly when no walk of stored edges leads from the source to the
    destination: [main] prints that no path is available exactly when none
    exists. *)
Theorem no_path_reported_iff_none {Q : PQueue} {QL : PQueueLaws Q} :
  forall (g : Graph) (source dest : string) (p W : Z) (fuel : nat)
         (c : Z) (it : list (string * string)) (g' : Graph),
    costs_within W g = true -> 0 <= W -> 0 <= p ->
    (Z.of_nat (size g) + 1) * (W + p) < INT_MAX ->
    is_Some (g !! dest) \/ dest = source ->
    dijkstra fuel g source dest p = Some ((c, it), g') ->
    (c = -1 <-> forall es, ~ is_walk g source es dest).
Proof.
  intros g source dest p W fuel c it g' Hc HW Hp Hb Hd Hrun. split.
  - intros Hneg es Hw.
    destruct (dijkstra_least g source p W p Hc HW Hp Hb Hp
                (transfers_within_penalty p g Hp) dest (enough_fuel g source)
                es Hd Hw (le_n _))
      as (c0 & it0 & g0 & es' & Hr & Hw' & _ & Hc0 & _).
    assert (Heq := dijkstra_fuel_agree _ _ _ _ _ _ _ _ Hrun Hr).
    simplify_eq.
    assert (H0 := ride_cost_nonneg W g p es' source "" dest Hc Hp Hw'). lia.
  - intros Hno.
    destruct (dijkstra_runs g source p W Hc HW Hp Hb dest
                (enough_fuel g source) Hd (le_n _))
      as (c0 & it0 & g0 & Hr & _ & Hres).
    assert (Heq := dijkstra_fuel_agree _ _ _ _ _ _ _ _ Hrun Hr).
    simplify_eq. destruct Hres as [[-> _]|(es & Hw & _)]; [done|].
    by destruct (Hno es).
Qed.

Lemma no_path_reported_iff_none_witness :
  9 = -1 <-> forall es, ~ is_walk sampleGraph "Times Sq" es "Grand Central".
Proof.
  apply (no_path_reported_iff_none (Q := ListPQ) sampleGraph "Times Sq"
           "Grand Central" 2 7 5 9
           [("Times Sq", ""); ("42nd St", "1"); ("Grand Central", "2")]
           sampleGraph).
  - vm_compute. reflexivity.
  - lia.
  - lia.
  - vm_compute. reflexivity.
  - left. vm_compute. eexists. reflexivity.
  - apply (bool_decide_eq_true_1 _). vm_compute. reflexivity.
Defined.

Lemma extract_min_first_None q : extract_min_first q = None -> q = [].
Proof.
  destruct q as [|n q]; [done|]. simpl.
  destruct (extract_min_first q) as [[m r]|]; [|done].
  by destruct (node_cost n <? node_cost m).
Qed.

Lemma extract_min_first_Some q : forall n q',
  extract_min_first q = Some (n, q') ->
  q ≡ₚ n :: q' /\ Forall (fun m => node_cost n <= node_cost m) q'.
Proof.
  induction q as [|a q IH]; intros n q' Hq; [done|].
  simpl in Hq. destruct (extract_min_first q) as [[m r]|] eqn:E.
  - destruct (IH m r eq_refl) as [Hp Hf].
    destruct (Z.ltb_spec (node_cost a) (node_cost m)); simplify_eq.
    + split; [done|]. rewrite Hp. constructor; [lia|].
      eapply Forall_impl; [exact Hf|]. simpl. intros; lia.
    + split.
      * rewrite Hp. apply perm_swap.
      * constructor; [lia|done].
  - simplify_eq. apply extract_min_first_None in E. subst. by split.
Qed.

Lemma ListPQ_first_laws : PQueueLaws ListPQ_first.
Proof.
  split.
  - reflexivity.
  - intros n q. reflexivity.
  - apply extract_min_first_None.
  - intros q n q'. apply extract_min_first_Some.
Qed.

(** X20: the graph and the query do not determine the returned cost: on
    [tieGraph], whose costs and penalty are within the preconditions, two
    queues that both satisfy the contract of a minimum queue, and differ
    only in which of two nodes of equal cost they return first, make
    [dijkstra] return cost 7 and cost 9 for the same query. *)
Theorem cost_depends_on_tie_order :
  PQueueLaws ListPQ /\ PQueueLaws ListPQ_first
  /\ costs_within 5 tieGraph = true
  /\ dijkstra (Q := ListPQ) 10 tieGraph "S" "D" 2
     = Some ((7, [("S", ""); ("Y", "B"); ("M", "B"); ("D", "B")]), tieGraph)
  /\ dijkstra (Q := ListPQ_first) 10 tieGraph "S" "D" 2
     = Some ((9, [("S", ""); ("X", "A"); ("M", "A"); ("D", "B")]), tieGraph).
Proof.
  split; [apply ListPQ_laws|]. split; [apply ListPQ_first_laws|].
  split; [vm_compute; reflexivity|].
  split; apply (bool_decide_eq_true_1 _); vm_compute; reflexivity.
Qed.

(** ** One query changes what a later query does *)

Lemma query_from_absent_source {Q : PQueue} {QL : PQueueLaws Q}
    fuel (g : Graph) s d p :
  g !! s = None -> is_Some (g !! d) ->
  dijkstra (S (S fuel)) g s d p = Some ((-1, []), <[s := []]> g).
Proof.
  intros Hs [es Hd].
  assert (Hne : s <> d) by congruence.
  unfold dijkstra. simpl.
  destruct (pop_first (mkNode 0 s "")) as (q' & -> & Hq').
  unfold visit. simpl. unfold dist_at at 1. rewrite lookup_insert_eq. simpl.
  destruct (String.eqb_spec s d); [done|].
  unfold adj_index. rewrite Hs. simpl.
  rewrite (pop_empty _ Hq'). unfold finish. simpl.
  unfold dist_at. rewrite lookup_insert_ne by done.
  rewrite lookup_fmap, Hd. done.
Qed.

Lemma neighbors_insert_empty (g : Graph) s u :
  g !! s = None -> neighbors (<[s := []]> g) u = neighbors g u.
Proof.
  intros Hs. unfold neighbors. destruct (decide (u = s)) as [->|Hne].
  - by rewrite lookup_insert_eq, Hs.
  - by rewrite lookup_insert_ne.
Qed.

Lemma costs_within_insert_empty W (g : Graph) s :
  g !! s = None -> costs_within W g = true ->
  costs_within W (<[s := []]> g) = true.
Proof.
  intros Hs. unfold costs_within. rewrite !forallb_all_edges.
  intros H u e He. apply (H u). by rewrite <- (neighbors_insert_empty g s u Hs).
Qed.

(** X21: queries interfere through the adjacency map.  Within the
    preconditions, let [s] be a station without an adjacency entry and [d]
    one with an entry: a query from [d] to [s] never returns; a query from
    [s] to [d] returns and leaves an empty entry for [s]; and on the map
    it leaves, the query from [d] to [s] returns. *)
Theorem earlier_query_changes_later_one {Q : PQueue} {QL : PQueueLaws Q} :
  forall (g : Graph) (s d : string) (p W : Z),
    costs_within W g = true -> 0 <= W -> 0 <= p ->
    (Z.of_nat (size g) + 2) * (W + p) < INT_MAX ->
    g !! s = None -> is_Some (g !! d) -> d <> "" -> g !! "" = None ->
    (forall fuel, dijkstra fuel g d s p = None)
    /\ (forall fuel, dijkstra (S (S fuel)) g s d p
                     = Some ((-1, []), <[s := []]> g))
    /\ exists r, forall fuel,
         (enough_fuel (<[s := []]> g) d <= fuel)%nat ->
         dijkstra fuel (<[s := []]> g) d s p = Some r.
Proof.
  intros g s d p W Hc HW Hp Hb Hs Hd Hde He.
  assert (Hsd : s <> d) by (intros ->; rewrite Hs in Hd; by destruct Hd).
  split; [|split].
  - apply absent_destination_never_returns with W; try done. nia.
  - intros fuel. by apply query_from_absent_source.
  - assert (Hc' := costs_within_insert_empty W g s Hs Hc).
    assert (Hsize : size (<[s := []]> g) = S (size g))
      by (by apply map_size_insert_None).
    assert (Hb' : (Z.of_nat (size (<[s := []]> g)) + 1) * (W + p) < INT_MAX)
      by (rewrite Hsize; lia).
    destruct (dijkstra_runs (<[s := []]> g) d p W Hc' HW Hp Hb' s
                (enough_fuel (<[s := []]> g) d))
      as (c & it & g' & Hr & _); [|done|].
    { left. rewrite lookup_insert_eq. by eexists. }
    exists ((c, it), g'). intros fuel Hf.
    by apply dijkstra_fuel_mono with (enough_fuel (<[s := []]> g) d).
Qed.

Lemma earlier_query_changes_later_one_witness :
  (forall fuel,
     dijkstra (Q := ListPQ) fuel (addEdge ∅ "A" "B" 1 "1") "A" "B" 2 = None)
  /\ (forall fuel,
        dijkstra (Q := ListPQ) (S (S fuel)) (addEdge ∅ "A" "B" 1 "1") "B" "A" 2
        = Some ((-1, []), <["B" := []]> (addEdge ∅ "A" "B" 1 "1")))
  /\ exists r, forall fuel,
       (enough_fuel (<["B" := []]> (addEdge ∅ "A" "B" 1 "1")) "A" <= fuel)%nat ->
       dijkstra (Q := ListPQ) fuel (<["B" := []]> (addEdge ∅ "A" "B" 1 "1"))
         "A" "B" 2 = Some r.
Proof.
  apply (earlier_query_changes_later_one (addEdge ∅ "A" "B" 1 "1") "B" "A" 2 1).
  - vm_compute. reflexivity.
  - lia.
  - lia.
  - vm_compute. reflexivity.
  - vm_compute. reflexivity.
  - vm_compute. eexists. reflexivity.
  - discriminate.
  - vm_compute. reflexivity.
Defined.
